(** * OpenQube: the Gaussian basis-set evaluation engine

    A shallow embedding of [src/gaussianset.cpp] (class [GaussianSet]) and
    the properties its specification states about it.

    Conventions of the embedding.
    - [double] is read as a real number ([R]): no rounding, overflow or NaN.
      [exp] is the real exponential and [pow] the real power function.
    - [unsigned int] is an [N] kept below [2^32] by [u32]; [size_t] and
      Eigen's [Index] are [N].
    - [std::vector] is a [list]; an index outside it is undefined behaviour
      in C++ and [None] here.  The same holds for a coefficient of an Eigen
      matrix that is outside the matrix or was never written.
    - [qDebug()] output is returned as a list of lines. *)

From Stdlib Require Import Reals Lra Lia List NArith ZArith String Bool.
From Stdlib Require Import Permutation.
From Stdlib Require Import Ascii.
Import ListNotations.

Module OpenQube.

Open Scope R_scope.

(** ** Machine integers and vectors *)

Definition u32 (n : N) : N := (n mod 4294967296)%N.

(** [unsigned int] subtraction wraps around. *)
Definition u32_sub (a b : N) : N := u32 (a + 4294967296 - u32 b)%N.

Definition size {A : Type} (v : list A) : N := N.of_nat (List.length v).

(** [v[i]]: reading inside the vector. *)
Definition vget {A : Type} (v : list A) (i : N) : option A :=
  nth_error v (N.to_nat i).

Fixpoint list_update {A : Type} (v : list A) (k : nat) (a : A) : list A :=
  match v, k with
  | [], _ => []
  | _ :: t, O => a :: t
  | h :: t, Datatypes.S k' => h :: list_update t k' a
  end.

(** [v[i] = a]: writing inside the vector. *)
Definition vset {A : Type} (v : list A) (i : N) (a : A) : option (list A) :=
  if (i <? size v)%N then Some (list_update v (N.to_nat i) a) else None.

(** [v.resize(n)] with value-initialised new elements. *)
Definition vresize {A : Type} (v : list A) (n : N) (dflt : A) : list A :=
  firstn (N.to_nat n) v ++ repeat dflt (N.to_nat n - List.length v).

(** [v.back()]. *)
Definition back {A : Type} (v : list A) : option A := nth_error (rev v) 0.

Definition bind {A B : Type} (o : option A) (f : A -> option B) : option B :=
  match o with
  | Some a => f a
  | None => None
  end.

Notation "x <- o ;; k" := (bind o (fun x => k))
  (at level 61, o at next level, right associativity).

(** [for (i = lo; i < hi; ++i) body], threading the loop's variables. *)
Fixpoint for_from {St : Type} (n : nat) (i : N) (body : N -> St -> option St)
    (s : St) : option St :=
  match n with
  | O => Some s
  | Datatypes.S n' => s' <- body i s ;; for_from n' (N.succ i) body s'
  end.

Definition for_range {St : Type} (lo hi : N) (body : N -> St -> option St)
    (s : St) : option St :=
  for_from (N.to_nat (hi - lo)) lo body s.

(** ** Eigen vectors and matrices *)

Record Vector3d : Type := mkVector3d { vx : R; vy : R; vz : R }.

Definition vsub (a b : Vector3d) : Vector3d :=
  mkVector3d (vx a - vx b) (vy a - vy b) (vz a - vz b).

Definition vscale (a : Vector3d) (k : R) : Vector3d :=
  mkVector3d (vx a * k) (vy a * k) (vz a * k).

Definition squaredNorm (a : Vector3d) : R :=
  vx a * vx a + vy a * vy a + vz a * vz a.

(** [Eigen::MatrixXd]: dynamic size, column-major storage.  A cell that was
    allocated and never written holds [None]. *)
Record MatrixXd : Type := mkMatrixXd {
  rows : N;
  cols : N;
  coeffs : list (option R)
}.

(** A default-constructed matrix is 0 x 0. *)
Definition emptyMatrix : MatrixXd := mkMatrixXd 0 0 [].

Definition msize (m : MatrixXd) : N := (rows m * cols m)%N.

(** [m.resize(r, c)]: nothing happens to the storage when the number of
    coefficients stays the same; otherwise the storage is reallocated and
    left uninitialised. *)
Definition resize (m : MatrixXd) (r c : N) : MatrixXd :=
  if (r * c =? msize m)%N then mkMatrixXd r c (coeffs m)
  else mkMatrixXd r c (repeat None (N.to_nat (r * c))).

(** Reading [m.coeffRef(i, j)]. *)
Definition coeffRef (m : MatrixXd) (i j : N) : option R :=
  if ((i <? rows m)%N && (j <? cols m)%N)%bool
  then c <- vget (coeffs m) (i + j * rows m)%N ;; c
  else None.

(** [m.coeffRef(i, j) = x]. *)
Definition coeffRef_set (m : MatrixXd) (i j : N) (x : R) : option MatrixXd :=
  if ((i <? rows m)%N && (j <? cols m)%N)%bool
  then cs <- vset (coeffs m) (i + j * rows m)%N (Some x) ;;
       Some (mkMatrixXd (rows m) (cols m) cs)
  else None.

(** ** The angular types *)

Inductive orbital : Type :=
  S | SP | P | D | D5 | F | F7 | G | G9 | H | H11 | I | I13.

(** ** Molecule *)

(** Modelled from the spec: the class [Molecule] (molecule.h, molecule.cpp),
    "an ordered sequence of Atoms", each "an atomic number plus a position",
    "addressed by zero-based index", with [addAtom(pos, Z) -> index],
    [numAtoms] and [atomPos(i)]. *)
Record Molecule : Type := mkMolecule { atoms : list (Vector3d * Z) }.

(** Modelled from the spec: a default-constructed [Molecule] has no atoms. *)
Definition emptyMolecule : Molecule := mkMolecule [].

(** Modelled from the spec: [Molecule::addAtom(pos, Z)] appends an atom. *)
Definition mol_addAtom (m : Molecule) (pos : Vector3d) (atomicNumber : Z)
    : Molecule :=
  mkMolecule (atoms m ++ [(pos, atomicNumber)]).

(** Modelled from the spec: [Molecule::numAtoms()], the size of the
    sequence. *)
Definition numAtoms (m : Molecule) : N := size (atoms m).

(** Modelled from the spec: [Molecule::atomPos(i)], the position of the atom
    with zero-based index [i]; the spec says nothing of an index past the
    last atom, which is left undefined here. *)
Definition atomPos (m : Molecule) (i : N) : option Vector3d :=
  a <- vget (atoms m) i ;; Some (fst a).

(** ** Cube *)

(** Modelled from the spec: the tag of a cube, "type tag in {MO, Density,
    ...}"; the source names [Cube::MO] and [Cube::ElectronDensity]. *)
Inductive CubeType : Type := MO | ElectronDensity | OtherType.

(** Modelled from the spec: the state of the cube's read/write lock as far
    as the evaluator uses it. *)
Inductive LockState : Type := Unlocked | LockedForWrite.

(** Modelled from the spec: the class [Cube] (cube.h, cube.cpp), "a regular
    3-D grid: origin, spacing, extents, a linear array of N scalar samples, a
    tag identifying what the samples represent, and a read/write lock";
    "position of sample i is origin + spacing * (ix, iy, iz) where
    (ix, iy, iz) is the row-major decomposition of i". *)
Record Cube : Type := mkCube {
  cube_origin : Vector3d;
  cube_spacing : Vector3d;
  cube_points : N * N * N;
  cube_data : list R;
  cube_type : CubeType;
  cube_lock : LockState
}.

(** Modelled from the spec: [Cube::position(i)], in Angstrom. *)
Definition position (c : Cube) (i : N) : Vector3d :=
  let '(_, ny, nz) := cube_points c in
  let ix := (i / (ny * nz))%N in
  let iy := ((i - ix * ny * nz) / nz)%N in
  let iz := (i mod nz)%N in
  mkVector3d (vx (cube_origin c) + vx (cube_spacing c) * IZR (Z.of_N ix))
             (vy (cube_origin c) + vy (cube_spacing c) * IZR (Z.of_N iy))
             (vz (cube_origin c) + vz (cube_spacing c) * IZR (Z.of_N iz)).

(** Modelled from the spec: [Cube::setValue(i, v)] stores [v] as sample [i];
    an index past the last sample stores nothing. *)
Definition setValue (c : Cube) (i : N) (v : R) : Cube :=
  match vset (cube_data c) i v with
  | Some d => mkCube (cube_origin c) (cube_spacing c) (cube_points c) d
                     (cube_type c) (cube_lock c)
  | None => c
  end.

(** Modelled from the spec: [Cube::setCubeType(tag)]. *)
Definition setCubeType (c : Cube) (t : CubeType) : Cube :=
  mkCube (cube_origin c) (cube_spacing c) (cube_points c) (cube_data c)
         t (cube_lock c).

(** Modelled from the spec: [lock()->lockForWrite()] and [lock()->unlock()]
    as the new state of the lock. *)
Definition setLock (c : Cube) (l : LockState) : Cube :=
  mkCube (cube_origin c) (cube_spacing c) (cube_points c) (cube_data c)
         (cube_type c) l.

(** ** GaussianSet *)

(** One unit of work of the parallel map.  The C++ struct also carries the
    pointers [set] and [tCube]; here the set and the cube are the ones the
    evaluator is applied to. *)
Record GaussianShell : Type := mkGaussianShell {
  pos : N;
  state : N
}.

(** The function a dispatched [QtConcurrent::map] runs. *)
Inductive MapFunction : Type := ProcessPoint | ProcessDensity.

(** A line written to [qDebug()]: its text and the numbers streamed after it. *)
Definition DebugLine : Type := (string * list N)%type.

Record GaussianSet : Type := mkGaussianSet {
  m_molecule : Molecule;
  m_symmetry : list orbital;
  m_atomIndices : list N;
  m_moIndices : list N;
  m_gtoIndices : list N;
  m_cIndices : list N;
  m_gtoA : list R;
  m_gtoC : list R;
  m_gtoCN : list R;
  m_moMatrix : MatrixXd;
  m_density : MatrixXd;
  m_numMOs : N;
  m_numAtoms : N;
  m_init : bool;
  m_gaussianShells : option (list GaussianShell);
  m_future : option MapFunction
}.

(** [GaussianSet::GaussianSet()]. *)
Definition newGaussianSet : GaussianSet :=
  {| m_molecule := emptyMolecule; m_symmetry := []; m_atomIndices := [];
     m_moIndices := []; m_gtoIndices := []; m_cIndices := [];
     m_gtoA := []; m_gtoC := []; m_gtoCN := [];
     m_moMatrix := emptyMatrix; m_density := emptyMatrix;
     m_numMOs := 0; m_numAtoms := 0; m_init := false;
     m_gaussianShells := None; m_future := None |}.

Definition addAtom (g : GaussianSet) (pos : Vector3d) (atomicNumber : Z)
    : N * GaussianSet :=
  let mol := mol_addAtom (m_molecule g) pos atomicNumber in
  (u32_sub (numAtoms mol) 1,
   {| m_molecule := mol; m_symmetry := m_symmetry g;
      m_atomIndices := m_atomIndices g; m_moIndices := m_moIndices g;
      m_gtoIndices := m_gtoIndices g; m_cIndices := m_cIndices g;
      m_gtoA := m_gtoA g; m_gtoC := m_gtoC g; m_gtoCN := m_gtoCN g;
      m_moMatrix := m_moMatrix g; m_density := m_density g;
      m_numMOs := m_numMOs g; m_numAtoms := m_numAtoms g; m_init := false;
      m_gaussianShells := m_gaussianShells g; m_future := m_future g |}).

Definition addBasis (g : GaussianSet) (atom : N) (type : orbital)
    : N * GaussianSet :=
  let numMOs' :=
    match type with
    | S => u32 (m_numMOs g + 1)
    | P => u32 (m_numMOs g + 3)
    | SP => u32 (m_numMOs g + 4)
    | D => u32 (m_numMOs g + 6)
    | D5 => u32 (m_numMOs g + 5)
    | F => u32 (m_numMOs g + 8)
    | F7 => u32 (m_numMOs g + 7)
    | _ => m_numMOs g
    end%N in
  let symmetry := m_symmetry g ++ [type] in
  (u32_sub (size symmetry) 1,
   {| m_molecule := m_molecule g; m_symmetry := symmetry;
      m_atomIndices := m_atomIndices g ++ [atom];
      m_moIndices := m_moIndices g;
      m_gtoIndices := m_gtoIndices g; m_cIndices := m_cIndices g;
      m_gtoA := m_gtoA g; m_gtoC := m_gtoC g; m_gtoCN := m_gtoCN g;
      m_moMatrix := m_moMatrix g; m_density := m_density g;
      m_numMOs := numMOs'; m_numAtoms := m_numAtoms g; m_init := false;
      m_gaussianShells := m_gaussianShells g; m_future := m_future g |}).

(** The first argument of [addGTO] is unnamed and unused in the source. *)
Definition addGTO (g : GaussianSet) (_ : N) (c a : R) : N * GaussianSet :=
  let gtoIndices :=
    if (size (m_gtoIndices g) <? size (m_atomIndices g))%N
    then m_gtoIndices g ++ [u32 (size (m_gtoA g))]
    else m_gtoIndices g in
  let gtoA := m_gtoA g ++ [a] in
  (u32_sub (size gtoA) 1,
   {| m_molecule := m_molecule g; m_symmetry := m_symmetry g;
      m_atomIndices := m_atomIndices g; m_moIndices := m_moIndices g;
      m_gtoIndices := gtoIndices; m_cIndices := m_cIndices g;
      m_gtoA := gtoA; m_gtoC := m_gtoC g ++ [c]; m_gtoCN := m_gtoCN g;
      m_moMatrix := m_moMatrix g; m_density := m_density g;
      m_numMOs := m_numMOs g; m_numAtoms := m_numAtoms g;
      m_init := m_init g;
      m_gaussianShells := m_gaussianShells g; m_future := m_future g |}).

Definition set_moMatrix (g : GaussianSet) (init : bool) (m : MatrixXd)
    : GaussianSet :=
  {| m_molecule := m_molecule g; m_symmetry := m_symmetry g;
     m_atomIndices := m_atomIndices g; m_moIndices := m_moIndices g;
     m_gtoIndices := m_gtoIndices g; m_cIndices := m_cIndices g;
     m_gtoA := m_gtoA g; m_gtoC := m_gtoC g; m_gtoCN := m_gtoCN g;
     m_moMatrix := m; m_density := m_density g;
     m_numMOs := m_numMOs g; m_numAtoms := m_numAtoms g; m_init := init;
     m_gaussianShells := m_gaussianShells g; m_future := m_future g |}.

(** The two nested loops of [addMOs], filling column [j] row by row. *)
Definition addMOs_column (MOs : list R) (numMOs : N) (j : N) (m : MatrixXd)
    : option MatrixXd :=
  for_range 0 numMOs
    (fun i m => x <- vget MOs (u32 (i + u32 (j * numMOs)))%N ;;
                coeffRef_set m i j x) m.

(** [addMOs]: the division by [m_numMOs] is undefined when it is zero. *)
Definition addMOs (g : GaussianSet) (MOs : list R)
    : option (GaussianSet * list DebugLine) :=
  if (m_numMOs g =? 0)%N then None else
  let columns := u32 (size MOs / m_numMOs g)%N in
  let out := [(" add MOs: "%string, [m_numMOs g; columns])] in
  let m0 := resize (m_moMatrix g) (m_numMOs g) (m_numMOs g) in
  m <- for_range 0 columns (addMOs_column MOs (m_numMOs g)) m0 ;;
  Some (set_moMatrix g false m, out).

Definition addMO (g : GaussianSet) (_ : R) : GaussianSet :=
  set_moMatrix g false (m_moMatrix g).

(** [setDensityMatrix]: [m_density] is resized to the shape of [m] and then
    assigned [m], which replaces its shape and every coefficient. *)
Definition setDensityMatrix (g : GaussianSet) (m : MatrixXd)
    : bool * GaussianSet :=
  let density := m in
  (true,
   {| m_molecule := m_molecule g; m_symmetry := m_symmetry g;
      m_atomIndices := m_atomIndices g; m_moIndices := m_moIndices g;
      m_gtoIndices := m_gtoIndices g; m_cIndices := m_cIndices g;
      m_gtoA := m_gtoA g; m_gtoC := m_gtoC g; m_gtoCN := m_gtoCN g;
      m_moMatrix := m_moMatrix g; m_density := density;
      m_numMOs := m_numMOs g; m_numAtoms := m_numAtoms g;
      m_init := m_init g;
      m_gaussianShells := m_gaussianShells g; m_future := m_future g |}).

(** [clone]: every member the source copies; the others are those of a
    freshly constructed set. *)
Definition clone (g : GaussianSet) : GaussianSet :=
  let result := newGaussianSet in
  {| m_molecule := m_molecule result; m_symmetry := m_symmetry g;
     m_atomIndices := m_atomIndices g; m_moIndices := m_moIndices g;
     m_gtoIndices := m_gtoIndices g; m_cIndices := m_cIndices g;
     m_gtoA := m_gtoA g; m_gtoC := m_gtoC g; m_gtoCN := m_gtoCN g;
     m_moMatrix := m_moMatrix g; m_density := m_density g;
     m_numMOs := m_numMOs g; m_numAtoms := m_numAtoms g;
     m_init := m_init g;
     m_gaussianShells := m_gaussianShells result;
     m_future := m_future result |}.

Definition isSmall (val : R) : bool :=
  if Rlt_dec (-1e-20) val
  then if Rlt_dec val 1e-20 then true else false
  else false.

(** [unsigned int numMOs()]. *)
Definition numMOs (g : GaussianSet) : N := u32 (rows (m_moMatrix g)).

(** [std::pow] on doubles read as reals; it is used on exponents of
    primitives, which are positive. *)
Definition pow (x y : R) : R := Rpower x y.

Definition M_PI : R := PI.

(** The variables of the loop over shells in [initCalculation]. *)
Record InitState : Type := mkInitState {
  indexMO : N;
  skip : N;
  moIndices : list N;
  cIndices : list N;
  gtoCN : list R;
  debugOut : list DebugLine
}.

Definition orbital_eqb (a b : orbital) : bool :=
  match a, b with
  | S, S | SP, SP | P, P | D, D | D5, D5 | F, F | F7, F7 | G, G | G9, G9
  | H, H | H11, H11 | I, I | I13, I13 => true
  | _, _ => false
  end.

(** The case labels [F], [F7], ..., [I13] of [initCalculation], in source
    order, each followed by its assignment to [skip] and by no [break]. *)
Definition skip_cases : list (orbital * N) :=
  [(F, 10); (F7, 7); (G, 15); (G9, 9); (H, 21); (H11, 11); (I, 28);
   (I13, 13)]%N.

(** Control enters at the label equal to [t] and runs every assignment from
    there to the end of the list. *)
Fixpoint fall_through (t : orbital) (cases : list (orbital * N))
    (entered : bool) (skip : N) : N :=
  match cases with
  | [] => skip
  | (label, v) :: rest =>
      if (entered || orbital_eqb t label)%bool
      then fall_through t rest true v
      else fall_through t rest false skip
  end.

(** [m_gtoCN.push_back(m_gtoCN.back())]. *)
Definition push_back_back (cn : list R) : option (list R) :=
  b <- back cn ;; Some (cn ++ [b]).

Definition notHandled : DebugLine :=
  ("Basis set not handled - results may be incorrect."%string, []).

Section InitCalculation.

Variable g : GaussianSet.
(** [m_gtoIndices] after the final entry was pushed. *)
Variable gtoIndices : list N.

Definition normS (j : N) (cn : list R) : option (list R) :=
  c <- vget (m_gtoC g) j ;; a <- vget (m_gtoA g) j ;;
  Some (cn ++ [c * pow a 0.75 * 0.71270547]).

Definition normP (j : N) (cn : list R) : option (list R) :=
  c <- vget (m_gtoC g) j ;; a <- vget (m_gtoA g) j ;;
  cn <- Some (cn ++ [c * pow a 1.25 * 1.425410941]) ;;
  cn <- push_back_back cn ;;
  push_back_back cn.

Definition normD (j : N) (cn : list R) : option (list R) :=
  c <- vget (m_gtoC g) j ;; a <- vget (m_gtoA g) j ;;
  cn <- Some (cn ++ [c * pow a 1.75 * 1.645922781]) ;;
  cn <- push_back_back cn ;;
  cn <- push_back_back cn ;;
  cn <- Some (cn ++ [c * pow a 1.75 * 2.850821881]) ;;
  cn <- push_back_back cn ;;
  push_back_back cn.

Definition normD5 (j : N) (cn : list R) : option (list R) :=
  c <- vget (m_gtoC g) j ;; a <- vget (m_gtoA g) j ;;
  cn <- Some (cn ++ [c * pow (2048 * pow a 7.0
                              / (9.0 * M_PI * M_PI * M_PI)) 0.25]) ;;
  cn <- Some (cn ++ [c * pow (2048 * pow a 7.0
                              / (M_PI * M_PI * M_PI)) 0.25]) ;;
  cn <- push_back_back cn ;;
  cn <- Some (cn ++ [c * pow (128 * pow a 7.0
                              / (M_PI * M_PI * M_PI)) 0.25]) ;;
  Some (cn ++ [c * pow (2048 * pow a 7.0
                        / (M_PI * M_PI * M_PI)) 0.25]).

(** A handled shell: record its MO offset, advance [indexMO] by [width],
    record where its normalized coefficients start, and push them. *)
Definition initHandled (i : N) (width : N)
    (norm : N -> list R -> option (list R)) (st : InitState)
    : option InitState :=
  moI <- vset (moIndices st) i (indexMO st) ;;
  lo <- vget gtoIndices i ;;
  hi <- vget gtoIndices (u32 (i + 1)) ;;
  cn <- for_range lo hi norm (gtoCN st) ;;
  Some {| indexMO := u32 (indexMO st + width); skip := skip st;
          moIndices := moI;
          cIndices := cIndices st ++ [u32 (size (gtoCN st))];
          gtoCN := cn; debugOut := debugOut st |}.

(** The body of the loop over shells: the [switch] on [m_symmetry[i]]. *)
Definition initShell (i : N) (st : InitState) : option InitState :=
  t <- vget (m_symmetry g) i ;;
  match t with
  | S => initHandled i 1 normS st
  | P => initHandled i 3 normP st
  | D => initHandled i 6 normD st
  | D5 => initHandled i 5 normD5 st
  | F | F7 | G | G9 | H | H11 | I | I13 =>
      let skip' := fall_through t skip_cases false (skip st) in
      moI <- vset (moIndices st) i (indexMO st) ;;
      Some {| indexMO := u32 (indexMO st + skip'); skip := skip';
              moIndices := moI;
              cIndices := cIndices st ++ [u32 (size (gtoCN st))];
              gtoCN := gtoCN st;
              debugOut := debugOut st ++ [notHandled] |}
  | SP =>
      Some {| indexMO := indexMO st; skip := skip st;
              moIndices := moIndices st; cIndices := cIndices st;
              gtoCN := gtoCN st;
              debugOut := debugOut st ++ [notHandled] |}
  end.

End InitCalculation.

(** The normalization pass proper: [initCalculation] past its guard. *)
Definition normalize (g : GaussianSet) : option (GaussianSet * list DebugLine) :=
  let numAtoms' := u32 (numAtoms (m_molecule g)) in
  let n := size (m_symmetry g) in
  let gtoIndices := m_gtoIndices g ++ [u32 (size (m_gtoA g))] in
  let st0 := {| indexMO := 0; skip := 0;
                moIndices := vresize (m_moIndices g) n 0%N;
                cIndices := m_cIndices g; gtoCN := []; debugOut := [] |} in
  st <- for_range 0 n (initShell g gtoIndices) st0 ;;
  Some ({| m_molecule := m_molecule g; m_symmetry := m_symmetry g;
           m_atomIndices := m_atomIndices g; m_moIndices := moIndices st;
           m_gtoIndices := gtoIndices; m_cIndices := cIndices st;
           m_gtoA := m_gtoA g; m_gtoC := m_gtoC g; m_gtoCN := gtoCN st;
           m_moMatrix := m_moMatrix g; m_density := m_density g;
           m_numMOs := m_numMOs g; m_numAtoms := numAtoms';
           m_init := true;
           m_gaussianShells := m_gaussianShells g;
           m_future := m_future g |},
        debugOut st).

Definition initCalculation (g : GaussianSet)
    : option (GaussianSet * list DebugLine) :=
  if m_init g then Some (g, []) else normalize g.

(** ** Kernels: the contribution of one shell to one MO at one point *)

Definition BOHR_TO_ANGSTROM : R := 0.529177249.
Definition ANGSTROM_TO_BOHR : R := 1.0 / BOHR_TO_ANGSTROM.

(** The bounds [m_gtoIndices[moIndex]] and [m_gtoIndices[moIndex+1]] of the
    loop over the primitives of a shell. *)
Definition gtoBounds (set : GaussianSet) (moIndex : N) : option (N * N) :=
  lo <- vget (m_gtoIndices set) moIndex ;;
  hi <- vget (m_gtoIndices set) (u32 (moIndex + 1)) ;;
  Some (lo, hi).

(** [exp(-set->m_gtoA[i] * dr2)]. *)
Definition tmpGTO (set : GaussianSet) (i : N) (dr2 : R) : option R :=
  a <- vget (m_gtoA set) i ;; Some (exp (- a * dr2)).

Definition pointS (set : GaussianSet) (moIndex : N) (dr2 : R) (indexMO : N)
    : option R :=
  row <- vget (m_moIndices set) moIndex ;;
  coeff <- coeffRef (m_moMatrix set) row indexMO ;;
  if isSmall coeff then Some 0.0 else
  cIndex <- vget (m_cIndices set) moIndex ;;
  b <- gtoBounds set moIndex ;;
  r <- for_range (fst b) (snd b)
         (fun i '(tmp, cIndex) =>
            cn <- vget (m_gtoCN set) cIndex ;;
            e <- tmpGTO set i dr2 ;;
            Some (tmp + cn * e, u32 (cIndex + 1)))
         (0.0, cIndex) ;;
  Some (fst r * coeff).

Definition pointP (set : GaussianSet) (moIndex : N) (delta : Vector3d)
    (dr2 : R) (indexMO : N) : option R :=
  baseIndex <- vget (m_moIndices set) moIndex ;;
  cIndex <- vget (m_cIndices set) moIndex ;;
  b <- gtoBounds set moIndex ;;
  r <- for_range (fst b) (snd b)
         (fun i '(x, y, z, cIndex) =>
            e <- tmpGTO set i dr2 ;;
            cx <- vget (m_gtoCN set) cIndex ;;
            cy <- vget (m_gtoCN set) (u32 (cIndex + 1)) ;;
            cz <- vget (m_gtoCN set) (u32 (cIndex + 2)) ;;
            Some (x + cx * vx delta * e, y + cy * vy delta * e,
                  z + cz * vz delta * e, u32 (cIndex + 3)))
         (0.0, 0.0, 0.0, cIndex) ;;
  let '(x, y, z, _) := r in
  Px <- coeffRef (m_moMatrix set) baseIndex indexMO ;;
  Py <- coeffRef (m_moMatrix set) (u32 (baseIndex + 1)) indexMO ;;
  Pz <- coeffRef (m_moMatrix set) (u32 (baseIndex + 2)) indexMO ;;
  Some (Px * x + Py * y + Pz * z).

Definition pointD (set : GaussianSet) (moIndex : N) (delta : Vector3d)
    (dr2 : R) (indexMO : N) : option R :=
  baseIndex <- vget (m_moIndices set) moIndex ;;
  cIndex <- vget (m_cIndices set) moIndex ;;
  b <- gtoBounds set moIndex ;;
  r <- for_range (fst b) (snd b)
         (fun i '(xx, yy, zz, xy, xz, yz, cIndex) =>
            e <- tmpGTO set i dr2 ;;
            c0 <- vget (m_gtoCN set) cIndex ;;
            c1 <- vget (m_gtoCN set) (u32 (cIndex + 1)) ;;
            c2 <- vget (m_gtoCN set) (u32 (cIndex + 2)) ;;
            c3 <- vget (m_gtoCN set) (u32 (cIndex + 3)) ;;
            c4 <- vget (m_gtoCN set) (u32 (cIndex + 4)) ;;
            c5 <- vget (m_gtoCN set) (u32 (cIndex + 5)) ;;
            Some (xx + c0 * e, yy + c1 * e, zz + c2 * e,
                  xy + c3 * e, xz + c4 * e, yz + c5 * e, u32 (cIndex + 6)))
         (0.0, 0.0, 0.0, 0.0, 0.0, 0.0, cIndex) ;;
  let '(xx, yy, zz, xy, xz, yz, _) := r in
  m0 <- coeffRef (m_moMatrix set) baseIndex indexMO ;;
  m1 <- coeffRef (m_moMatrix set) (u32 (baseIndex + 1)) indexMO ;;
  m2 <- coeffRef (m_moMatrix set) (u32 (baseIndex + 2)) indexMO ;;
  m3 <- coeffRef (m_moMatrix set) (u32 (baseIndex + 3)) indexMO ;;
  m4 <- coeffRef (m_moMatrix set) (u32 (baseIndex + 4)) indexMO ;;
  m5 <- coeffRef (m_moMatrix set) (u32 (baseIndex + 5)) indexMO ;;
  let Dxx := m0 * vx delta * vx delta in
  let Dyy := m1 * vy delta * vy delta in
  let Dzz := m2 * vz delta * vz delta in
  let Dxy := m3 * vx delta * vy delta in
  let Dxz := m4 * vx delta * vz delta in
  let Dyz := m5 * vy delta * vz delta in
  Some (Dxx * xx + Dyy * yy + Dzz * zz + Dxy * xy + Dxz * xz + Dyz * yz).

Definition pointD5 (set : GaussianSet) (moIndex : N) (delta : Vector3d)
    (dr2 : R) (indexMO : N) : option R :=
  baseIndex <- vget (m_moIndices set) moIndex ;;
  cIndex <- vget (m_cIndices set) moIndex ;;
  b <- gtoBounds set moIndex ;;
  r <- for_range (fst b) (snd b)
         (fun i '(d0, d1p, d1n, d2p, d2n, cIndex) =>
            e <- tmpGTO set i dr2 ;;
            c0 <- vget (m_gtoCN set) cIndex ;;
            c1 <- vget (m_gtoCN set) (u32 (cIndex + 1)) ;;
            c2 <- vget (m_gtoCN set) (u32 (cIndex + 2)) ;;
            c3 <- vget (m_gtoCN set) (u32 (cIndex + 3)) ;;
            c4 <- vget (m_gtoCN set) (u32 (cIndex + 4)) ;;
            Some (d0 + c0 * e, d1p + c1 * e, d1n + c2 * e,
                  d2p + c3 * e, d2n + c4 * e, u32 (cIndex + 5)))
         (0.0, 0.0, 0.0, 0.0, 0.0, cIndex) ;;
  let '(d0, d1p, d1n, d2p, d2n, _) := r in
  let xx := vx delta * vx delta in
  let yy := vy delta * vy delta in
  let zz := vz delta * vz delta in
  let xy := vx delta * vy delta in
  let xz := vx delta * vz delta in
  let yz := vy delta * vz delta in
  m0 <- coeffRef (m_moMatrix set) baseIndex indexMO ;;
  m1 <- coeffRef (m_moMatrix set) (u32 (baseIndex + 1)) indexMO ;;
  m2 <- coeffRef (m_moMatrix set) (u32 (baseIndex + 2)) indexMO ;;
  m3 <- coeffRef (m_moMatrix set) (u32 (baseIndex + 3)) indexMO ;;
  m4 <- coeffRef (m_moMatrix set) (u32 (baseIndex + 4)) indexMO ;;
  let D0 := m0 * (zz - dr2) in
  let D1p := m1 * xz in
  let D1n := m2 * yz in
  let D2p := m3 * (xx - yy) in
  let D2n := m4 * xy in
  Some (D0 * d0 + D1p * d1p + D1n * d1n + D2p * d2p + D2n * d2n).

(** ** The per-point evaluation *)

(** The first loop of [processPoint]: [deltas] and [dr2] for every atom. *)
Definition atomDeltas (set : GaussianSet) (pos : Vector3d)
    : option (list Vector3d * list R) :=
  for_range 0 (m_numAtoms set)
    (fun i '(deltas, dr2) =>
       a <- atomPos (m_molecule set) i ;;
       let d := vsub pos a in
       Some (deltas ++ [d], dr2 ++ [squaredNorm d]))
    ([], []).

(** The body of the second loop of [processPoint]: the [switch] on
    [basis[i]], with [S] handled by the kernel [kS]. *)
Definition shellValue
    (kS : GaussianSet -> N -> R -> N -> option R)
    (set : GaussianSet) (deltas : list Vector3d) (dr2 : list R)
    (indexMO : N) (i : N) (tmp : R) : option R :=
  t <- vget (m_symmetry set) i ;;
  match t with
  | S =>
      a <- vget (m_atomIndices set) i ;; r <- vget dr2 a ;;
      v <- kS set i r indexMO ;; Some (tmp + v)
  | P =>
      a <- vget (m_atomIndices set) i ;;
      d <- vget deltas a ;; r <- vget dr2 a ;;
      v <- pointP set i d r indexMO ;; Some (tmp + v)
  | D =>
      a <- vget (m_atomIndices set) i ;;
      d <- vget deltas a ;; r <- vget dr2 a ;;
      v <- pointD set i d r indexMO ;; Some (tmp + v)
  | D5 =>
      a <- vget (m_atomIndices set) i ;;
      d <- vget deltas a ;; r <- vget dr2 a ;;
      v <- pointD5 set i d r indexMO ;; Some (tmp + v)
  | _ => Some tmp
  end.

(** The value [processPoint] computes at the position [pos] (in Bohr) for
    the MO column [indexMO], with [kS] as the S kernel. *)
Definition moValueWith
    (kS : GaussianSet -> N -> R -> N -> option R)
    (set : GaussianSet) (indexMO : N) (pos : Vector3d) : option R :=
  dd <- atomDeltas set pos ;;
  for_range 0 (size (m_symmetry set))
    (shellValue kS set (fst dd) (snd dd) indexMO) 0.0.

Definition moValue : GaussianSet -> N -> Vector3d -> option R :=
  moValueWith pointS.

(** [processPoint]: evaluate at the cube's point [pos shell] and store the
    value there. *)
Definition processPoint (set : GaussianSet) (tCube : Cube)
    (shell : GaussianShell) : option Cube :=
  let indexMO := u32_sub (state shell) 1 in
  let p := vscale (position tCube (pos shell)) ANGSTROM_TO_BOHR in
  tmp <- moValue set indexMO p ;;
  Some (setValue tCube (pos shell) tmp).

(** ** The evaluator *)

(** What a call of the evaluator does: it returns, it runs into undefined
    behaviour, or it blocks on the cube's lock. *)
Inductive Outcome (A : Type) : Type :=
  | Returns (a : A)
  | Undefined
  | Blocks.
Arguments Returns {A} a.
Arguments Undefined {A}.
Arguments Blocks {A}.

(** The state a call leaves behind: the return value, the set, the cube and
    the lines written to [qDebug()]. *)
Record Called : Type := mkCalled {
  result : bool;
  set_after : GaussianSet;
  cube_after : Cube;
  debug_lines : list DebugLine
}.

(** The work array: one [GaussianShell] per sample of the cube. *)
Definition workArray (cube : Cube) (st : N) : list GaussianShell :=
  map (fun i => mkGaussianShell (N.of_nat i) st)
      (seq 0 (List.length (cube_data cube))).

(** The common tail of [calculateCubeMO] and [calculateCubeDensity]: build
    the work array, lock the cube for writing, tag it, dispatch the map. *)
Definition dispatch (g : GaussianSet) (cube : Cube) (st : N)
    (tag : CubeType) (fn : MapFunction) (out : list DebugLine)
    : Outcome Called :=
  match cube_lock cube with
  | LockedForWrite => Blocks
  | Unlocked =>
      let cube' := setCubeType (setLock cube LockedForWrite) tag in
      let g' :=
        {| m_molecule := m_molecule g; m_symmetry := m_symmetry g;
           m_atomIndices := m_atomIndices g; m_moIndices := m_moIndices g;
           m_gtoIndices := m_gtoIndices g; m_cIndices := m_cIndices g;
           m_gtoA := m_gtoA g; m_gtoC := m_gtoC g; m_gtoCN := m_gtoCN g;
           m_moMatrix := m_moMatrix g; m_density := m_density g;
           m_numMOs := m_numMOs g; m_numAtoms := m_numAtoms g;
           m_init := m_init g;
           m_gaussianShells := Some (workArray cube st);
           m_future := Some fn |} in
      Returns (mkCalled true g' cube' out)
  end.

Definition calculateCubeMO (g : GaussianSet) (cube : Cube) (st : N)
    : Outcome Called :=
  if ((st <? 1)%N || (u32 (rows (m_moMatrix g)) <? st)%N)%bool
  then Returns (mkCalled false g cube [])
  else
    match initCalculation g with
    | None => Undefined
    | Some (g1, out) => dispatch g1 cube st MO ProcessPoint out
    end.

Definition densityNotSet : DebugLine :=
  ("Cannot calculate density -- density matrix not set."%string, []).

(** [calculateCubeDensity]: the work items carry no state ([0] here). *)
Definition calculateCubeDensity (g : GaussianSet) (cube : Cube)
    : Outcome Called :=
  if (msize (m_density g) =? 0)%N
  then Returns (mkCalled false g cube [densityNotSet])
  else
    match initCalculation g with
    | None => Undefined
    | Some (g1, out) =>
        dispatch g1 cube 0 ElectronDensity ProcessDensity out
    end.

(** The dispatched map over the work array with [processPoint]. *)
Fixpoint mapProcessPoint (set : GaussianSet) (shells : list GaussianShell)
    (cube : Cube) : option Cube :=
  match shells with
  | [] => Some cube
  | sh :: rest =>
      cube' <- processPoint set cube sh ;; mapProcessPoint set rest cube'
  end.

(** [calculationComplete]: unlock the cube and free the work array. *)
Definition calculationComplete (g : GaussianSet) (cube : Cube)
    : GaussianSet * Cube :=
  ({| m_molecule := m_molecule g; m_symmetry := m_symmetry g;
      m_atomIndices := m_atomIndices g; m_moIndices := m_moIndices g;
      m_gtoIndices := m_gtoIndices g; m_cIndices := m_cIndices g;
      m_gtoA := m_gtoA g; m_gtoC := m_gtoC g; m_gtoCN := m_gtoCN g;
      m_moMatrix := m_moMatrix g; m_density := m_density g;
      m_numMOs := m_numMOs g; m_numAtoms := m_numAtoms g;
      m_init := m_init g;
      m_gaussianShells := None; m_future := m_future g |},
   setLock cube Unlocked).

(** ** The S kernel as the specification words it *)

(** Following the specification (section 4.4): the contribution of an S
    shell is [(sum_j normC_j * exp(-alpha_j * dr2)) * C[moOffset, moIndex]],
    with no test on the size of the coefficient. *)
Definition pointS_noShortcut (set : GaussianSet) (moIndex : N) (dr2 : R)
    (indexMO : N) : option R :=
  row <- vget (m_moIndices set) moIndex ;;
  coeff <- coeffRef (m_moMatrix set) row indexMO ;;
  cIndex <- vget (m_cIndices set) moIndex ;;
  b <- gtoBounds set moIndex ;;
  r <- for_range (fst b) (snd b)
         (fun i '(tmp, cIndex) =>
            cn <- vget (m_gtoCN set) cIndex ;;
            e <- tmpGTO set i dr2 ;;
            Some (tmp + cn * e, u32 (cIndex + 1)))
         (0.0, cIndex) ;;
  Some (fst r * coeff).

Definition moValue_noShortcut : GaussianSet -> N -> Vector3d -> option R :=
  moValueWith pointS_noShortcut.

(** ** The value of an MO at a point *)

(** The MO value the evaluator produces for state [st] at the position [p]
    (in Bohr): the guard of [calculateCubeMO], the normalization it runs,
    and the value [processPoint] computes, with [kS] as the S kernel. *)
Definition valueAtWith
    (kS : GaussianSet -> N -> R -> N -> option R)
    (g : GaussianSet) (st : N) (p : Vector3d) : option R :=
  if ((st <? 1)%N || (u32 (rows (m_moMatrix g)) <? st)%N)%bool then None
  else r <- initCalculation g ;; moValueWith kS (fst r) (u32_sub st 1) p.

Definition valueAt : GaussianSet -> N -> Vector3d -> option R :=
  valueAtWith pointS.

Definition valueAt_noShortcut : GaussianSet -> N -> Vector3d -> option R :=
  valueAtWith pointS_noShortcut.

(** ** The life of one basis: the calls made on it since its construction *)

Inductive Call : Type :=
  | CallAddAtom (p : Vector3d) (atomicNumber : Z)
  | CallAddBasis (atom : N) (type : orbital)
  | CallAddGTO (c a : R)
  | CallAddMOs (MOs : list R)
  | CallAddMO (x : R)
  | CallSetDensityMatrix (m : MatrixXd)
  | CallCalculateCubeMO (cube : Cube) (st : N)
  | CallCalculateCubeDensity (cube : Cube)
  | CallCalculationComplete (cube : Cube).

Definition after (o : Outcome Called) : option GaussianSet :=
  match o with
  | Returns r => Some (set_after r)
  | _ => None
  end.

Definition call (c : Call) (g : GaussianSet) : option GaussianSet :=
  match c with
  | CallAddAtom p z => Some (snd (addAtom g p z))
  | CallAddBasis atom t => Some (snd (addBasis g atom t))
  | CallAddGTO c a => Some (snd (addGTO g 0 c a))
  | CallAddMOs MOs => r <- addMOs g MOs ;; Some (fst r)
  | CallAddMO x => Some (addMO g x)
  | CallSetDensityMatrix m => Some (snd (setDensityMatrix g m))
  | CallCalculateCubeMO cube st => after (calculateCubeMO g cube st)
  | CallCalculateCubeDensity cube => after (calculateCubeDensity g cube)
  | CallCalculationComplete cube => Some (fst (calculationComplete g cube))
  end.

Fixpoint calls (cs : list Call) (g : GaussianSet) : option GaussianSet :=
  match cs with
  | [] => Some g
  | c :: rest => g' <- call c g ;; calls rest g'
  end.

Definition isAddMOs (c : Call) : bool :=
  match c with CallAddMOs _ => true | _ => false end.

Definition isSetDensityMatrix (c : Call) : bool :=
  match c with CallSetDensityMatrix _ => true | _ => false end.

(** ** The bases of the specification's test scenarios *)

Definition origin : Vector3d := mkVector3d 0 0 0.

(** One atom (hydrogen) at the origin carrying one shell of type [t] with
    one primitive of coefficient [c] and exponent [a], and the MO
    coefficients [MOs]. *)
Definition oneShellCalls (t : orbital) (c a : R) (MOs : list R) : list Call :=
  [CallAddAtom origin 1; CallAddBasis 0 t; CallAddGTO c a; CallAddMOs MOs].

Definition oneShellBasis (t : orbital) (c a : R) (MOs : list R)
    : option GaussianSet :=
  calls (oneShellCalls t c a MOs) newGaussianSet.

(** An F7 shell followed by an S shell, one primitive each, on one atom. *)
Definition f7ThenS : option GaussianSet :=
  calls [CallAddAtom origin 1; CallAddBasis 0 F7; CallAddGTO 1.0 1.0;
         CallAddBasis 0 S; CallAddGTO 1.0 1.0] newGaussianSet.

(** Two S shells on one atom, before any MO coefficients. *)
Definition twoShells : list Call :=
  [CallAddAtom origin 1; CallAddBasis 0 S; CallAddGTO 1.0 1.0;
   CallAddBasis 0 S; CallAddGTO 1.0 0.5].

(** The set a history of calls builds from a fresh one. *)
Definition built (cs : list Call) : GaussianSet :=
  match calls cs newGaussianSet with
  | Some g => g
  | None => newGaussianSet
  end.

(** Two S shells whose MO matrix is set twice: first in full, then from a
    file that holds one MO only. *)
Definition twoShellsTwoLoads : option GaussianSet :=
  calls (twoShells ++ [CallAddMOs [1.0; 0.0; 0.0; 1.0]; CallAddMOs [1.0; 0.0]])
        newGaussianSet.

(** The storage [cs] holds the first [b] coefficients of [MOs] and, from
    [b] on, what [cs0] held. *)
Definition Filled (MOs : list R) (cs0 : list (option R)) (b : N)
    (cs : list (option R)) : Prop :=
  size cs = size cs0 /\
  forall k, ((k < b)%N -> vget cs k = option_map Some (vget MOs k)) /\
            ((b <= k)%N -> vget cs k = vget cs0 k).

(** The matrix [m] is [n] x [n] and its storage is filled up to [b]. *)
Record Shaped (n : N) (MOs : list R) (cs0 : list (option R)) (b : N)
    (m : MatrixXd) : Prop := {
  shaped_rows : rows m = n;
  shaped_cols : cols m = n;
  shaped_filled : Filled MOs cs0 b (coeffs m)
}.

(** The cube of the specification's scenario A: 3 x 3 x 3 samples from
    (-1, -1, -1) with spacing 1. *)
Definition scenarioCube : Cube :=
  mkCube (mkVector3d (-1) (-1) (-1)) (mkVector3d 1 1 1) (3, 3, 3)%N
         (repeat 0 27) OtherType Unlocked.

(** A hydrogen atom with one S shell and no MO coefficients yet. *)
Definition shellsOnly : list Call :=
  [CallAddAtom origin 1; CallAddBasis 0 S; CallAddGTO 1.0 1.0].

(** The S basis of the scenarios after its normalization pass, then
    [addGTO] resp. [setDensityMatrix] called on it: the pair of [m_init]
    flags that result. *)
Definition initAfterLateCalls : option (bool * bool) :=
  g <- oneShellBasis S 1.0 1.0 [1.0] ;;
  r <- initCalculation g ;;
  Some (m_init (snd (addGTO (fst r) 0 1.0 2.0)),
        m_init (snd (setDensityMatrix (fst r) (mkMatrixXd 1 1 [Some 1.0])))).

(** What [normalize] leaves for the F7 shell followed by an S shell: the
    count [addBasis] kept, the MO offsets, the offsets into the normalized
    coefficients, the number of normalized coefficients and the log. *)
Definition f7ThenS_normalized
    : option (N * list N * list N * N * list DebugLine) :=
  g <- f7ThenS ;;
  r <- normalize g ;;
  Some (m_numMOs g, m_moIndices (fst r), m_cIndices (fst r),
        size (m_gtoCN (fst r)), snd r).

(** Scenario A: hydrogen at the origin, one S shell, one primitive with
    exponent 1.0 and coefficient 1.0, the 1 x 1 identity as MO matrix. *)
Definition sBasis : option GaussianSet := oneShellBasis S 1.0 1.0 [1.0].

(** Scenario B, normalized: as A with the MO coefficient 0.0. *)
Definition sBasisZero : option GaussianSet :=
  g <- oneShellBasis S 1.0 1.0 [0.0] ;;
  r <- initCalculation g ;; Some (fst r).

Definition normalizedZero : GaussianSet :=
  match sBasisZero with
  | Some g => g
  | None => newGaussianSet
  end.

(** As scenario A with the MO coefficient 1e-21. *)
Definition sBasisTiny : option GaussianSet := oneShellBasis S 1.0 1.0 [1e-21].

(** As scenario C below with the first MO coefficient 1e-21. *)
Definition pBasisTiny : option GaussianSet :=
  oneShellBasis P 1.0 1.0 [1e-21; 0.0; 0.0].

(** Scenario C: one atom at the origin, one P shell with exponent 1.0 and
    coefficient 1.0, MO coefficients (1, 0, 0) for state 1. *)
Definition pBasis : option GaussianSet :=
  oneShellBasis P 1.0 1.0 [1.0; 0.0; 0.0].

(** The storage of a matrix holds one cell per coefficient. *)
Definition wellFormed (m : MatrixXd) : Prop :=
  size (coeffs m) = msize m.

(** The shells for which the shortcut of [pointS] is exact: an S shell whose
    MO coefficient is small is one whose coefficient is zero. *)
Definition smallMeansZero (set : GaussianSet) (indexMO : N) : Prop :=
  forall i row c,
    vget (m_symmetry set) i = Some S ->
    vget (m_moIndices set) i = Some row ->
    coeffRef (m_moMatrix set) row indexMO = Some c ->
    isSmall c = true -> c = 0.

(** ** Invariants of a basis under construction *)

(** The number of MO rows [addBasis] counts for a shell of type [t]: the
    [switch] of [addBasis] read as a function. *)
Definition components (t : orbital) : N :=
  match t with
  | S => 1
  | P => 3
  | SP => 4
  | D => 6
  | D5 => 5
  | F => 8
  | F7 => 7
  | _ => 0
  end%N.

Definition componentSum (shells : list orbital) : N :=
  fold_right (fun t acc => (components t + acc)%N) 0%N shells.

(** The parallel vectors of a set are aligned: one atom index per shell,
    one coefficient per exponent, and every recorded first-primitive index
    lies within the primitives. *)
Record Aligned (g : GaussianSet) : Prop := {
  aligned_shells : size (m_atomIndices g) = size (m_symmetry g);
  aligned_primitives : size (m_gtoC g) = size (m_gtoA g);
  aligned_indices : Forall (fun k => (k <= size (m_gtoA g))%N) (m_gtoIndices g)
}.

(** The set [dispatch] leaves: [g] with a work array and a running map. *)
Definition withWork (g : GaussianSet) (shells : list GaussianShell)
    (fn : MapFunction) : GaussianSet :=
  {| m_molecule := m_molecule g; m_symmetry := m_symmetry g;
     m_atomIndices := m_atomIndices g; m_moIndices := m_moIndices g;
     m_gtoIndices := m_gtoIndices g; m_cIndices := m_cIndices g;
     m_gtoA := m_gtoA g; m_gtoC := m_gtoC g; m_gtoCN := m_gtoCN g;
     m_moMatrix := m_moMatrix g; m_density := m_density g;
     m_numMOs := m_numMOs g; m_numAtoms := m_numAtoms g;
     m_init := m_init g;
     m_gaussianShells := Some shells; m_future := Some fn |}.

(** A basis with one S, one P and one D5 shell, two primitives on the P
    shell, before any MO coefficients. *)
Definition threeShells : list Call :=
  [CallAddAtom origin 8; CallAddBasis 0 S; CallAddGTO 1.0 2.0;
   CallAddBasis 0 P; CallAddGTO 0.5 1.5; CallAddGTO 0.5 0.25;
   CallAddBasis 0 D5; CallAddGTO 1.0 0.75].

(** The shells for which the normalization pass writes its diagnostic: the
    types other than S, P, D and D5. *)
Definition notEvaluated (t : orbital) : bool :=
  match t with
  | S | P | D | D5 => false
  | _ => true
  end.

(** The shells for which the pass records an offset in [m_cIndices]: all
    but SP, which only reaches the [default] label. *)
Definition recordsOffset (t : orbital) : bool :=
  match t with
  | SP => false
  | _ => true
  end.

Definition countShells (f : orbital -> bool) (shells : list orbital) : N :=
  size (filter f shells).

(** The bookkeeping of the loop over shells: the offsets it appends and the
    diagnostics it writes, after the first [i] shells. *)
Definition Bookkept (g : GaussianSet) (c0 : list N) (i : N) (st : InitState)
    : Prop :=
  (exists added,
     cIndices st = c0 ++ added /\
     size added
     = countShells recordsOffset (firstn (N.to_nat i) (m_symmetry g))) /\
  size (debugOut st)
  = countShells notEvaluated (firstn (N.to_nat i) (m_symmetry g)).

(** [-a] on an Eigen vector. *)
Definition vneg (a : Vector3d) : Vector3d :=
  mkVector3d (- vx a) (- vy a) (- vz a).

(** Two runs of a loop that either both stop at an out-of-range access or
    both return, with results related by [Rel]. *)
Definition related {St : Type} (Rel : St -> St -> Prop)
    (o1 o2 : option St) : Prop :=
  match o1, o2 with
  | Some s1, Some s2 => Rel s1 s2
  | None, None => True
  | _, _ => False
  end.

(** ** A computation from its dispatch to its completion *)

(** The slot [calculationComplete] as the [finished] signal runs it: it
    takes the cube to unlock from the first item of the work array, so the
    array must exist and hold an item. *)
Definition finished (g : GaussianSet) (cube : Cube)
    : option (GaussianSet * Cube) :=
  match m_gaussianShells g with
  | Some (_ :: _) => Some (calculationComplete g cube)
  | _ => None
  end.

(** [calculateCubeMO], the map it dispatches over its work array, and the
    slot that runs when the map has finished, one after the other: what the
    caller finds once the [finished] signal has been emitted. *)
Definition calculateCubeMO_completed (g : GaussianSet) (cube : Cube) (st : N)
    : option Called :=
  match calculateCubeMO g cube st with
  | Returns r =>
      if result r then
        shells <- m_gaussianShells (set_after r) ;;
        c <- mapProcessPoint (set_after r) shells (cube_after r) ;;
        gc <- finished (set_after r) c ;;
        Some (mkCalled true (fst gc) (snd gc) (debug_lines r))
      else Some r
  | _ => None
  end.

(** The position of sample [i] of the cube, in Bohr. *)
Definition samplePoint (cube : Cube) (i : N) : Vector3d :=
  vscale (position cube i) ANGSTROM_TO_BOHR.

(** The work items for the samples [a], ..., [a + k - 1]. *)
Definition workItems (st : N) (a k : nat) : list GaussianShell :=
  map (fun i => mkGaussianShell (N.of_nat i) st) (seq a k).

(** Two cubes with the same grid, tag and lock. *)
Definition sameFrame (c c' : Cube) : Prop :=
  cube_origin c' = cube_origin c /\ cube_spacing c' = cube_spacing c /\
  cube_points c' = cube_points c /\ cube_type c' = cube_type c /\
  cube_lock c' = cube_lock c.

(** ** The density at a point *)

(** The kernels of [processDensity] store the value of each basis function
    of a shell in the rows [m_moIndices[basis]], ... of the column vector
    [out], applying no MO coefficient.  Their argument [basis] is an [int]
    and so is [baseIndex]: the additions on them are not reduced modulo
    2^32. *)

Definition pointS_values (set : GaussianSet) (dr2 : R) (basis : N)
    (out : MatrixXd) : option MatrixXd :=
  cIndex <- vget (m_cIndices set) basis ;;
  lo <- vget (m_gtoIndices set) basis ;;
  hi <- vget (m_gtoIndices set) (basis + 1)%N ;;
  r <- for_range lo hi
         (fun i '(tmp, cIndex) =>
            cn <- vget (m_gtoCN set) cIndex ;;
            e <- tmpGTO set i dr2 ;;
            Some (tmp + cn * e, u32 (cIndex + 1)))
         (0.0, cIndex) ;;
  row <- vget (m_moIndices set) basis ;;
  coeffRef_set out row 0 (fst r).

Definition pointP_values (set : GaussianSet) (delta : Vector3d) (dr2 : R)
    (basis : N) (out : MatrixXd) : option MatrixXd :=
  cIndex <- vget (m_cIndices set) basis ;;
  lo <- vget (m_gtoIndices set) basis ;;
  hi <- vget (m_gtoIndices set) (basis + 1)%N ;;
  r <- for_range lo hi
         (fun i '(x, y, z, cIndex) =>
            e <- tmpGTO set i dr2 ;;
            cx <- vget (m_gtoCN set) cIndex ;;
            cy <- vget (m_gtoCN set) (u32 (cIndex + 1)) ;;
            cz <- vget (m_gtoCN set) (u32 (cIndex + 2)) ;;
            Some (x + cx * e, y + cy * e, z + cz * e, u32 (cIndex + 3)))
         (0.0, 0.0, 0.0, cIndex) ;;
  let '(x, y, z, _) := r in
  baseIndex <- vget (m_moIndices set) basis ;;
  out <- coeffRef_set out baseIndex 0 (x * vx delta) ;;
  out <- coeffRef_set out (baseIndex + 1)%N 0 (y * vy delta) ;;
  coeffRef_set out (baseIndex + 2)%N 0 (z * vz delta).

Definition pointD_values (set : GaussianSet) (delta : Vector3d) (dr2 : R)
    (basis : N) (out : MatrixXd) : option MatrixXd :=
  cIndex <- vget (m_cIndices set) basis ;;
  lo <- vget (m_gtoIndices set) basis ;;
  hi <- vget (m_gtoIndices set) (basis + 1)%N ;;
  r <- for_range lo hi
         (fun i '(xx, yy, zz, xy, xz, yz, cIndex) =>
            e <- tmpGTO set i dr2 ;;
            c0 <- vget (m_gtoCN set) cIndex ;;
            c1 <- vget (m_gtoCN set) (u32 (cIndex + 1)) ;;
            c2 <- vget (m_gtoCN set) (u32 (cIndex + 2)) ;;
            c3 <- vget (m_gtoCN set) (u32 (cIndex + 3)) ;;
            c4 <- vget (m_gtoCN set) (u32 (cIndex + 4)) ;;
            c5 <- vget (m_gtoCN set) (u32 (cIndex + 5)) ;;
            Some (xx + c0 * e, yy + c1 * e, zz + c2 * e,
                  xy + c3 * e, xz + c4 * e, yz + c5 * e, u32 (cIndex + 6)))
         (0.0, 0.0, 0.0, 0.0, 0.0, 0.0, cIndex) ;;
  let '(xx, yy, zz, xy, xz, yz, _) := r in
  baseIndex <- vget (m_moIndices set) basis ;;
  out <- coeffRef_set out baseIndex 0 (vx delta * vx delta * xx) ;;
  out <- coeffRef_set out (baseIndex + 1)%N 0 (vy delta * vy delta * yy) ;;
  out <- coeffRef_set out (baseIndex + 2)%N 0 (vz delta * vz delta * zz) ;;
  out <- coeffRef_set out (baseIndex + 3)%N 0 (vx delta * vy delta * xy) ;;
  out <- coeffRef_set out (baseIndex + 4)%N 0 (vx delta * vz delta * xz) ;;
  coeffRef_set out (baseIndex + 5)%N 0 (vy delta * vz delta * yz).

Definition pointD5_values (set : GaussianSet) (delta : Vector3d) (dr2 : R)
    (basis : N) (out : MatrixXd) : option MatrixXd :=
  cIndex <- vget (m_cIndices set) basis ;;
  lo <- vget (m_gtoIndices set) basis ;;
  hi <- vget (m_gtoIndices set) (basis + 1)%N ;;
  r <- for_range lo hi
         (fun i '(d0, d1p, d1n, d2p, d2n, cIndex) =>
            e <- tmpGTO set i dr2 ;;
            c0 <- vget (m_gtoCN set) cIndex ;;
            c1 <- vget (m_gtoCN set) (u32 (cIndex + 1)) ;;
            c2 <- vget (m_gtoCN set) (u32 (cIndex + 2)) ;;
            c3 <- vget (m_gtoCN set) (u32 (cIndex + 3)) ;;
            c4 <- vget (m_gtoCN set) (u32 (cIndex + 4)) ;;
            Some (d0 + c0 * e, d1p + c1 * e, d1n + c2 * e,
                  d2p + c3 * e, d2n + c4 * e, u32 (cIndex + 5)))
         (0.0, 0.0, 0.0, 0.0, 0.0, cIndex) ;;
  let '(d0, d1p, d1n, d2p, d2n, _) := r in
  let xx := vx delta * vx delta in
  let yy := vy delta * vy delta in
  let zz := vz delta * vz delta in
  let xy := vx delta * vy delta in
  let xz := vx delta * vz delta in
  let yz := vy delta * vz delta in
  baseIndex <- vget (m_moIndices set) basis ;;
  out <- coeffRef_set out baseIndex 0 ((zz - dr2) * d0) ;;
  out <- coeffRef_set out (baseIndex + 1)%N 0 (xz * d1p) ;;
  out <- coeffRef_set out (baseIndex + 2)%N 0 (yz * d1n) ;;
  out <- coeffRef_set out (baseIndex + 3)%N 0 ((xx - yy) * d2p) ;;
  coeffRef_set out (baseIndex + 4)%N 0 (xy * d2n).

(** [MatrixXd values(matrixSize, 1)]: allocated and not initialised. *)
Definition newColumn (matrixSize : N) : MatrixXd :=
  mkMatrixXd matrixSize 1 (repeat None (N.to_nat matrixSize)).

(** The loop of [processDensity] over the shells, filling [values]. *)
Definition basisValues (set : GaussianSet) (deltas : list Vector3d)
    (dr2 : list R) (i : N) (values : MatrixXd) : option MatrixXd :=
  cAtom <- vget (m_atomIndices set) i ;;
  t <- vget (m_symmetry set) i ;;
  match t with
  | S => r <- vget dr2 cAtom ;; pointS_values set r i values
  | P =>
      d <- vget deltas cAtom ;; r <- vget dr2 cAtom ;;
      pointP_values set d r i values
  | D =>
      d <- vget deltas cAtom ;; r <- vget dr2 cAtom ;;
      pointD_values set d r i values
  | D5 =>
      d <- vget deltas cAtom ;; r <- vget dr2 cAtom ;;
      pointD5_values set d r i values
  | _ => Some values
  end.

(** One pass of the outer loop that sums the density: the off-diagonal
    terms of row [i], doubled, then its diagonal term. *)
Definition rhoRow (density values : MatrixXd) (i : N) (rho : R) : option R :=
  rho <- for_range 0 i
           (fun j rho =>
              dij <- coeffRef density i j ;;
              vi <- coeffRef values i 0 ;;
              vj <- coeffRef values j 0 ;;
              Some (rho + 2.0 * dij * (vi * vj)))
           rho ;;
  dii <- coeffRef density i i ;;
  vi <- coeffRef values i 0 ;;
  Some (rho + dii * (vi * vi)).

Definition rhoSum (density values : MatrixXd) (matrixSize : N) : option R :=
  for_range 0 matrixSize (rhoRow density values) 0.0.

(** The density [processDensity] computes at the position [p] (in Bohr). *)
Definition rhoValue (set : GaussianSet) (p : Vector3d) : option R :=
  let matrixSize := u32 (rows (m_density set)) in
  dd <- atomDeltas set p ;;
  values <- for_range 0 (size (m_symmetry set))
              (basisValues set (fst dd) (snd dd)) (newColumn matrixSize) ;;
  rhoSum (m_density set) values matrixSize.

Definition processDensity (set : GaussianSet) (tCube : Cube)
    (shell : GaussianShell) : option Cube :=
  let p := vscale (position tCube (pos shell)) ANGSTROM_TO_BOHR in
  rho <- rhoValue set p ;;
  Some (setValue tCube (pos shell) rho).

(** The density matrix has zeros below its diagonal and nothing negative
    on it. *)
Definition diagonalNonNegative (density : MatrixXd) : Prop :=
  (forall i j d, (j < i)%N -> coeffRef density i j = Some d -> d = 0) /\
  (forall i d, coeffRef density i i = Some d -> 0 <= d).

(** The S basis of scenario B, normalized, with the 1 x 1 density matrix
    [(1.0)] installed. *)
Definition densityExample : GaussianSet :=
  snd (setDensityMatrix normalizedZero (mkMatrixXd 1 1 [Some 1.0])).

(** Two 2 x 2 matrices that differ above the diagonal only, and a column
    of two values. *)
Definition lowerExample : MatrixXd :=
  mkMatrixXd 2 2 [Some 1.0; Some 2.0; Some 5.0; Some 3.0].
Definition lowerExample' : MatrixXd :=
  mkMatrixXd 2 2 [Some 1.0; Some 2.0; Some 7.0; Some 3.0].
Definition columnExample : MatrixXd :=
  mkMatrixXd 2 1 [Some 0.5; Some 0.25].

(** The basis values [values] of the [width] functions of a shell, weighted
    by the MO coefficients of the rows from [base] on in column [indexMO]:
    [sum_k C[base + k, indexMO] * values[base + k]]. *)
Definition contract (C values : MatrixXd) (base width indexMO : N)
    : option R :=
  for_range 0 width
    (fun k acc =>
       c <- coeffRef C (base + k)%N indexMO ;;
       v <- coeffRef values (base + k)%N 0 ;;
       Some (acc + c * v))
    0.

(** The P basis of scenario C after its normalization pass. *)
Definition pNormalized : GaussianSet :=
  match (g <- pBasis ;; r <- initCalculation g ;; Some (fst r)) with
  | Some g => g
  | None => newGaussianSet
  end.

(** ** The basis-set loader ([basissetloader.cpp]) *)

(** File names are strings of ASCII characters.  The functions of Qt the
    loader calls are read from Qt's documentation: [QFileInfo::fileName]
    (the name without the path), [QFileInfo::path] (the path without the
    name, ["."] when there is none), [QFileInfo::completeSuffix] (all
    characters of the file name after its first ['.']) and
    [QString::contains] with [Qt::CaseInsensitive]. *)

Definition toLower (c : ascii) : ascii :=
  let n := nat_of_ascii c in
  if ((65 <=? n)%nat && (n <=? 90)%nat)%bool then ascii_of_nat (n + 32) else c.

Fixpoint startsWithCI (s needle : string) {struct needle} : bool :=
  match needle, s with
  | EmptyString, _ => true
  | String _ _, EmptyString => false
  | String a needle', String b s' =>
      (Ascii.eqb (toLower a) (toLower b) && startsWithCI s' needle')%bool
  end.

(** [s.contains(needle, Qt::CaseInsensitive)]. *)
Fixpoint containsCI (s needle : string) : bool :=
  (startsWithCI s needle
   || match s with
      | EmptyString => false
      | String _ s' => containsCI s' needle
      end)%bool.

Fixpoint hasSlash (s : string) : bool :=
  match s with
  | EmptyString => false
  | String c s' => (Ascii.eqb c "/" || hasSlash s')%bool
  end.

(** [QFileInfo(s).fileName()]: what follows the last ['/']. *)
Fixpoint fileName (s : string) : string :=
  match s with
  | EmptyString => EmptyString
  | String c s' =>
      if hasSlash s' then fileName s'
      else if Ascii.eqb c "/" then s' else s
  end.

(** [QFileInfo(s).path()]: what precedes the last ['/'], ["/"] for a file
    of the root directory and ["."] when the name has no path. *)
Fixpoint beforeLastSlash (s : string) : string :=
  match s with
  | EmptyString => EmptyString
  | String c s' =>
      if hasSlash s' then String c (beforeLastSlash s') else EmptyString
  end.

Definition path (s : string) : string :=
  if hasSlash s then
    match beforeLastSlash s with
    | EmptyString => "/"%string
    | p => p
    end
  else "."%string.

Fixpoint afterFirstDot (s : string) : string :=
  match s with
  | EmptyString => EmptyString
  | String c s' => if Ascii.eqb c "." then s' else afterFirstDot s'
  end.

(** [QFileInfo(s).completeSuffix()]. *)
Definition completeSuffix (s : string) : string :=
  afterFirstDot (fileName s).

(** The parser a loaded file is handed to. *)
Inductive FileFormat : Type :=
  Fchk | Gukout | Aux | Molden.

(** The chain of tests on the complete suffix that [MatchBasisSet] and
    [LoadBasisSet] share, in source order. *)
Definition formatOf (suffix : string) : option FileFormat :=
  if (containsCI suffix "fchk" || containsCI suffix "fch"
      || containsCI suffix "fck")%bool then Some Fchk
  else if containsCI suffix "gukout" then Some Gukout
  else if containsCI suffix "aux" then Some Aux
  else if (containsCI suffix "molden" || containsCI suffix "mold"
           || containsCI suffix "molf")%bool then Some Molden
  else None.

(** What [LoadBasisSet] returns: a new [GaussianSet] or [SlaterSet] handed
    to the parser of the format, or the null pointer.  The parsers and
    [SlaterSet] are not part of this development: the result records which
    class was instantiated and which parser was run on it. *)
Inductive Loaded : Type :=
  | LoadedGaussian (format : FileFormat)
  | LoadedSlater (format : FileFormat).

Definition LoadBasisSet (filename : string) : option Loaded :=
  match formatOf (completeSuffix filename) with
  | Some Aux => Some (LoadedSlater Aux)
  | Some f => Some (LoadedGaussian f)
  | None => None
  end.

(** The [foreach] loop of [MatchBasisSet] over the candidate names. *)
Fixpoint firstMatch (parentPath : string) (names : list string) : string :=
  match names with
  | [] => EmptyString
  | name :: rest =>
      let fullFileName := (parentPath ++ "/" ++ name)%string in
      match formatOf (completeSuffix fullFileName) with
      | Some _ => fullFileName
      | None => firstMatch parentPath rest
      end
  end.

(** [MatchBasisSet]; [entries] is what [parentDir.entryList] returns: the
    readable files of the directory whose names match [baseName.*]. *)
Definition MatchBasisSet (entries : list string) (filename : string)
    : string :=
  if String.eqb filename EmptyString then EmptyString
  else firstMatch (path filename) (fileName filename :: entries).

(** * Properties *)

(** ** Vectors and loops *)

Lemma u32_small (n : N) : (n < 4294967296)%N -> u32 n = n.
Proof. intros Hn. unfold u32. now apply N.mod_small. Qed.

Lemma list_update_length {A : Type} (v : list A) (k : nat) (a : A) :
  List.length (list_update v k a) = List.length v.
Proof.
  revert k. induction v as [|h t IH]; intros [|k]; simpl; auto.
Qed.

Lemma nth_error_list_update_eq {A : Type} (v : list A) (k : nat) (a : A) :
  (k < List.length v)%nat -> nth_error (list_update v k a) k = Some a.
Proof.
  revert k. induction v as [|h t IH]; intros [|k]; simpl; intros Hk;
    try lia; auto.
  apply IH. lia.
Qed.

Lemma nth_error_list_update_neq {A : Type} (v : list A) (k k' : nat) (a : A) :
  k <> k' -> nth_error (list_update v k a) k' = nth_error v k'.
Proof.
  revert k k'. induction v as [|h t IH]; intros [|k] [|k']; simpl;
    intros Hk; try congruence; auto.
Qed.

Lemma vset_spec {A : Type} (v v' : list A) (i : N) (a : A) :
  vset v i a = Some v' ->
  size v' = size v /\ vget v' i = Some a /\
  forall k, k <> i -> vget v' k = vget v k.
Proof.
  unfold vset, vget, size.
  destruct (N.ltb_spec i (N.of_nat (List.length v))) as [Hi|Hi];
    [|discriminate].
  intros [= <-]. split; [|split].
  - now rewrite list_update_length.
  - apply nth_error_list_update_eq. lia.
  - intros k Hk. apply nth_error_list_update_neq. lia.
Qed.

Lemma vset_defined {A : Type} (v : list A) (i : N) (a : A) :
  (i < size v)%N -> exists v', vset v i a = Some v'.
Proof.
  intros Hi. unfold vset. apply N.ltb_lt in Hi. rewrite Hi. eauto.
Qed.

Lemma vget_in_range {A : Type} (v : list A) (i : N) (a : A) :
  vget v i = Some a -> (i < size v)%N.
Proof.
  unfold vget, size. intros Hget.
  assert (N.to_nat i < List.length v)%nat
    by (apply nth_error_Some; congruence).
  lia.
Qed.

Lemma vget_defined {A : Type} (v : list A) (i : N) :
  (i < size v)%N -> exists a, vget v i = Some a.
Proof.
  unfold vget, size. intros Hi.
  destruct (nth_error v (N.to_nat i)) eqn:E; eauto.
  apply nth_error_None in E. lia.
Qed.

(** A loop that keeps an invariant runs to its end and establishes the
    invariant at its upper bound. *)
Lemma for_from_invariant {St : Type} (P : N -> St -> Prop)
    (body : N -> St -> option St) (n : nat) :
  forall (i : N) (s : St),
    P i s ->
    (forall k s, (i <= k < i + N.of_nat n)%N -> P k s ->
                 exists s', body k s = Some s' /\ P (N.succ k) s') ->
    exists s', for_from n i body s = Some s' /\ P (i + N.of_nat n)%N s'.
Proof.
  induction n as [|n IH]; intros i s Hs Hstep.
  - exists s. split; [reflexivity|].
    now replace (i + N.of_nat 0)%N with i by lia.
  - destruct (Hstep i s ltac:(lia) Hs) as [s1 [Hb Hs1]].
    destruct (IH (N.succ i) s1 Hs1) as [s' [Hf Hs']].
    { intros k s2 Hk. apply Hstep. lia. }
    exists s'. split.
    + simpl. rewrite Hb. exact Hf.
    + now replace (i + N.of_nat (Datatypes.S n))%N
        with (N.succ i + N.of_nat n)%N by lia.
Qed.

Lemma for_range_invariant {St : Type} (P : N -> St -> Prop)
    (body : N -> St -> option St) (lo hi : N) (s : St) :
  (lo <= hi)%N -> P lo s ->
  (forall k s, (lo <= k < hi)%N -> P k s ->
               exists s', body k s = Some s' /\ P (N.succ k) s') ->
  exists s', for_range lo hi body s = Some s' /\ P hi s'.
Proof.
  intros Hle Hs Hstep. unfold for_range.
  destruct (for_from_invariant P body (N.to_nat (hi - lo)) lo s Hs)
    as [s' [Hf Hs']].
  { intros k s2 Hk. apply Hstep. lia. }
  exists s'. split; [exact Hf|].
  now replace (lo + N.of_nat (N.to_nat (hi - lo)))%N with hi in Hs' by lia.
Qed.

(** A loop whose body is replaced by one that agrees with it wherever it
    is defined gives the same result. *)
Lemma for_from_agree {St : Type} (b1 b2 : N -> St -> option St) (n : nat) :
  (forall k s s', b1 k s = Some s' -> b2 k s = Some s') ->
  forall i s r, for_from n i b1 s = Some r -> for_from n i b2 s = Some r.
Proof.
  intros Hb. induction n as [|n IH]; simpl; intros i s r Hr; [exact Hr|].
  destruct (b1 i s) as [s1|] eqn:H1; simpl in Hr; [|discriminate].
  rewrite (Hb _ _ _ H1). simpl. now apply IH.
Qed.

(** ** Frame lemmas: what a call leaves alone *)

Lemma initCalculation_frame (g g1 : GaussianSet) (out : list DebugLine) :
  initCalculation g = Some (g1, out) ->
  m_moMatrix g1 = m_moMatrix g /\ m_density g1 = m_density g.
Proof.
  unfold initCalculation, normalize. destruct (m_init g).
  - intros [= <- _]. split; reflexivity.
  - destruct (for_range _ _ _ _); simpl; [|discriminate].
    intros [= <- _]. split; reflexivity.
Qed.

Lemma dispatch_frame (g : GaussianSet) (cube : Cube) (st : N)
    (tag : CubeType) (fn : MapFunction) (out : list DebugLine)
    (g' : GaussianSet) :
  after (dispatch g cube st tag fn out) = Some g' ->
  m_moMatrix g' = m_moMatrix g /\ m_density g' = m_density g.
Proof.
  unfold dispatch. destruct (cube_lock cube); simpl; [|discriminate].
  intros [= <-]. split; reflexivity.
Qed.

Lemma calculateCubeMO_frame (g : GaussianSet) (cube : Cube) (st : N)
    (g' : GaussianSet) :
  after (calculateCubeMO g cube st) = Some g' ->
  m_moMatrix g' = m_moMatrix g /\ m_density g' = m_density g.
Proof.
  unfold calculateCubeMO. destruct (_ || _)%bool; simpl.
  - intros [= <-]. split; reflexivity.
  - destruct (initCalculation g) as [[g1 out]|] eqn:Hinit; simpl; [|discriminate].
    intros Hd. apply dispatch_frame in Hd. apply initCalculation_frame in Hinit.
    destruct Hd as [-> ->]. exact Hinit.
Qed.

Lemma calculateCubeDensity_frame (g : GaussianSet) (cube : Cube)
    (g' : GaussianSet) :
  after (calculateCubeDensity g cube) = Some g' ->
  m_moMatrix g' = m_moMatrix g /\ m_density g' = m_density g.
Proof.
  unfold calculateCubeDensity. destruct (_ =? _)%N; simpl.
  - intros [= <-]. split; reflexivity.
  - destruct (initCalculation g) as [[g1 out]|] eqn:Hinit; simpl; [|discriminate].
    intros Hd. apply dispatch_frame in Hd. apply initCalculation_frame in Hinit.
    destruct Hd as [-> ->]. exact Hinit.
Qed.

Lemma call_keeps_moMatrix (c : Call) (g g' : GaussianSet) :
  isAddMOs c = false -> call c g = Some g' -> m_moMatrix g' = m_moMatrix g.
Proof.
  destruct c; simpl; try discriminate; intros _ Hc;
    try (injection Hc as <-; reflexivity).
  - apply calculateCubeMO_frame in Hc. apply Hc.
  - apply calculateCubeDensity_frame in Hc. apply Hc.
Qed.

Lemma call_keeps_density (c : Call) (g g' : GaussianSet) :
  isSetDensityMatrix c = false -> call c g = Some g' ->
  m_density g' = m_density g.
Proof.
  destruct c; simpl; try discriminate; intros _ Hc;
    try (injection Hc as <-; reflexivity).
  - unfold addMOs in Hc. destruct (m_numMOs g =? 0)%N; [discriminate|].
    destruct (for_range _ _ _ _); simpl in Hc; [|discriminate].
    injection Hc as <-. reflexivity.
  - apply calculateCubeMO_frame in Hc. apply Hc.
  - apply calculateCubeDensity_frame in Hc. apply Hc.
Qed.

(** A member that every call of a kind [excluded] leaves alone is, after
    any history without such a call, what it was at the start. *)
Lemma calls_keep {A : Type} (member : GaussianSet -> A)
    (excluded : Call -> bool) :
  (forall c g g', excluded c = false -> call c g = Some g' ->
                  member g' = member g) ->
  forall cs g0 g,
    calls cs g0 = Some g ->
    forallb (fun c => negb (excluded c)) cs = true ->
    member g = member g0.
Proof.
  intros Hstep cs. induction cs as [|c rest IH]; simpl; intros g0 g Hcs Hno.
  - injection Hcs as <-. reflexivity.
  - apply andb_true_iff in Hno as [Hc Hrest].
    destruct (call c g0) as [g1|] eqn:Hcall; simpl in Hcs; [|discriminate].
    rewrite (IH _ _ Hcs Hrest). apply (Hstep c); [|exact Hcall].
    now apply negb_true_iff.
Qed.

(** ** The guards of the evaluator *)

(** C2: for every cube and every state outside [[1, numMOs()]],
    [calculateCubeMO] returns false; the set and the cube (its lock, its tag
    and its samples) are what they were, and nothing is written to the log. *)
Theorem calculateCubeMO_rejects_out_of_range
    (g : GaussianSet) (cube : Cube) (st : N) :
  (st < 1 \/ numMOs g < st)%N ->
  calculateCubeMO g cube st = Returns (mkCalled false g cube []).
Proof.
  intros Hout. unfold calculateCubeMO, numMOs in *.
  destruct Hout as [Hlo | Hhi].
  - apply N.ltb_lt in Hlo. rewrite Hlo. reflexivity.
  - apply N.ltb_lt in Hhi. rewrite Hhi, orb_true_r. reflexivity.
Qed.

(** C9: on a basis on which [setDensityMatrix] was never called,
    [calculateCubeDensity] returns false and writes its diagnostic; the set
    (no work array, no dispatched map) and the cube are what they were. *)
Theorem calculateCubeDensity_without_density_matrix
    (cs : list Call) (g : GaussianSet) (cube : Cube) :
  calls cs newGaussianSet = Some g ->
  forallb (fun c => negb (isSetDensityMatrix c)) cs = true ->
  calculateCubeDensity g cube = Returns (mkCalled false g cube [densityNotSet]).
Proof.
  intros Hcs Hno.
  pose proof (calls_keep m_density isSetDensityMatrix call_keeps_density
                _ _ _ Hcs Hno) as Hd.
  unfold calculateCubeDensity. rewrite Hd. reflexivity.
Qed.

(** C10: [numMOs()] is the row count of the MO matrix: on a basis on which
    [addMOs] was never called it is 0, whatever shells were added, and
    [calculateCubeMO] returns false for every state, changing nothing. *)
Theorem numMOs_zero_before_addMOs (cs : list Call) (g : GaussianSet) :
  calls cs newGaussianSet = Some g ->
  forallb (fun c => negb (isAddMOs c)) cs = true ->
  numMOs g = 0%N /\
  forall cube st,
    calculateCubeMO g cube st = Returns (mkCalled false g cube []).
Proof.
  intros Hcs Hno.
  pose proof (calls_keep m_moMatrix isAddMOs call_keeps_moMatrix
                _ _ _ Hcs Hno) as Hm.
  assert (Hz : numMOs g = 0%N) by (unfold numMOs; rewrite Hm; reflexivity).
  split; [exact Hz|]. intros cube st.
  unfold calculateCubeMO. rewrite Hm. change (u32 (rows _)) with 0%N.
  destruct (N.ltb_spec st 1) as [Hlo | Hhi]; simpl.
  - reflexivity.
  - assert (Hst : (0 <? st)%N = true) by (apply N.ltb_lt; lia).
    rewrite Hst. reflexivity.
Qed.

Lemma calculateCubeMO_rejects_out_of_range_witness :
  let g := built (oneShellCalls S 1.0 1.0 [1.0]) in
  numMOs g = 1%N /\
  calculateCubeMO g scenarioCube 0
  = Returns (mkCalled false g scenarioCube []) /\
  calculateCubeMO g scenarioCube (numMOs g + 1)
  = Returns (mkCalled false g scenarioCube []).
Proof.
  split; [reflexivity|]. split.
  - apply (calculateCubeMO_rejects_out_of_range _ scenarioCube 0).
    left. reflexivity.
  - apply (calculateCubeMO_rejects_out_of_range _ scenarioCube).
    right. reflexivity.
Defined.

Lemma calculateCubeDensity_without_density_matrix_witness :
  exists g,
    calls shellsOnly newGaussianSet = Some g /\
    calculateCubeDensity g scenarioCube
    = Returns (mkCalled false g scenarioCube [densityNotSet]).
Proof.
  eexists. split; [reflexivity|].
  apply (calculateCubeDensity_without_density_matrix shellsOnly);
    reflexivity.
Defined.

Lemma numMOs_zero_before_addMOs_witness :
  exists g,
    calls shellsOnly newGaussianSet = Some g /\
    m_numMOs g = 1%N /\ numMOs g = 0%N /\
    calculateCubeMO g scenarioCube 1
    = Returns (mkCalled false g scenarioCube []).
Proof.
  eexists. split; [reflexivity|]. split; [reflexivity|].
  destruct (numMOs_zero_before_addMOs shellsOnly _ eq_refl eq_refl)
    as [Hz Hall].
  split; [exact Hz | apply Hall].
Defined.

(** ** The normalized flag *)

(** C4 (as the code has it): [addAtom], [addBasis] and [addMOs] clear
    [m_init], so the next [initCalculation] runs the normalization pass;
    [setDensityMatrix] leaves [m_init] as it was, and on a normalized set
    the next [initCalculation] does nothing. *)
Theorem mutators_and_the_normalized_flag (g : GaussianSet) :
  (forall p z, let g' := snd (addAtom g p z) in
     m_init g' = false /\ initCalculation g' = normalize g') /\
  (forall atom t, let g' := snd (addBasis g atom t) in
     m_init g' = false /\ initCalculation g' = normalize g') /\
  (forall MOs g' out, addMOs g MOs = Some (g', out) ->
     m_init g' = false /\ initCalculation g' = normalize g') /\
  (forall m, let g' := snd (setDensityMatrix g m) in
     m_init g' = m_init g /\
     (m_init g = true -> initCalculation g' = Some (g', []))).
Proof.
  split; [|split; [|split]].
  - intros p z g'. split; reflexivity.
  - intros atom t g'. split; reflexivity.
  - intros MOs g' out Hadd.
    assert (Hinit : m_init g' = false).
    { unfold addMOs in Hadd. destruct (m_numMOs g =? 0)%N; [discriminate|].
      destruct (for_range _ _ _ _); simpl in Hadd; [|discriminate].
      injection Hadd as <- _. reflexivity. }
    split; [exact Hinit|]. unfold initCalculation. now rewrite Hinit.
  - intros m g'. split; [reflexivity|].
    intros Hinit. unfold initCalculation. subst g'. simpl.
    now rewrite Hinit.
Qed.

(** C4, the claim as stated fails: on a normalized set, [addGTO] and
    [setDensityMatrix] both leave [m_init] true. *)
Lemma late_calls_keep_the_normalized_flag :
  initAfterLateCalls = Some (true, true).
Proof. reflexivity. Qed.

(** ** Shells of type F and higher in the normalization pass *)

(** C5, the code at the failing input: whichever of the labels F, ..., I13
    is entered, [skip] ends as 13; so for an F7 shell followed by an S shell
    (8 components by [addBasis]) the S shell's MO offset is 13, not 7.  The
    F7 shell gets no normalized coefficient (the one of the S shell is the
    only one) and one diagnostic. *)
Theorem higher_shells_always_skip_13 :
  Forall (fun t => forall s, fall_through t skip_cases false s = 13%N)
         [F; F7; G; G9; H; H11; I; I13] /\
  f7ThenS_normalized
  = Some (8%N, [0; 13]%N, [0; 0]%N, 1%N, [notHandled]).
Proof.
  split.
  - repeat constructor.
  - reflexivity.
Qed.

Lemma mutators_and_the_normalized_flag_witness :
  exists g g' out,
    calls shellsOnly newGaussianSet = Some g /\
    addMOs g [1.0] = Some (g', out) /\
    m_init g' = false /\ initCalculation g' = normalize g'.
Proof.
  eexists. eexists. eexists. split; [reflexivity|].
  match goal with |- addMOs ?g ?MOs = _ /\ _ =>
    destruct (mutators_and_the_normalized_flag g) as (_ & _ & Hadd & _);
    split; [reflexivity | apply (Hadd MOs _ _ eq_refl)]
  end.
Defined.

(** ** The MO matrix after [addMOs] *)

Lemma addMOs_cell (MOs : list R) (cs0 : list (option R)) (n i j : N)
    (m : MatrixXd) :
  (size MOs < 4294967296)%N -> size cs0 = (n * n)%N ->
  (i < n)%N -> (j < n)%N -> (i + j * n < size MOs)%N ->
  Shaped n MOs cs0 (j * n + i) m ->
  exists m',
    (x <- vget MOs (u32 (i + u32 (j * n))) ;; coeffRef_set m i j x) = Some m' /\
    Shaped n MOs cs0 (j * n + N.succ i) m'.
Proof.
  intros Hsz Hlen Hi Hj Hin [Hr Hc [Hl Hf]].
  rewrite (u32_small (j * n)) by lia. rewrite u32_small by lia.
  destruct (vget_defined MOs (i + j * n)%N Hin) as [x Hx].
  rewrite Hx. simpl. unfold coeffRef_set. rewrite Hr, Hc.
  apply N.ltb_lt in Hi as Hi', Hj as Hj'. rewrite Hi', Hj'. simpl.
  destruct (vset_defined (coeffs m) (i + j * n)%N (Some x)) as [cs Hcs].
  { rewrite Hl, Hlen. nia. }
  rewrite Hcs. simpl. eexists. split; [reflexivity|].
  apply vset_spec in Hcs as [Hl' [Hget Hother]].
  constructor; simpl; auto. split; [congruence|].
  intros k. split; intros Hk.
  - destruct (N.eq_dec k (i + j * n)%N) as [->|Hne].
    + rewrite Hget, Hx. reflexivity.
    + rewrite Hother by exact Hne. apply Hf. lia.
  - rewrite Hother by lia. apply Hf. lia.
Qed.

Lemma addMOs_column_fills (MOs : list R) (cs0 : list (option R)) (n j : N)
    (m : MatrixXd) :
  (size MOs < 4294967296)%N -> size cs0 = (n * n)%N ->
  (j < n)%N -> (N.succ j * n <= size MOs)%N ->
  Shaped n MOs cs0 (j * n) m ->
  exists m', addMOs_column MOs n j m = Some m' /\
             Shaped n MOs cs0 (N.succ j * n) m'.
Proof.
  intros Hsz Hlen Hj Hin Hm. unfold addMOs_column.
  destruct (for_range_invariant
              (fun i m => Shaped n MOs cs0 (j * n + i) m)
              (fun i m => x <- vget MOs (u32 (i + u32 (j * n))) ;;
                          coeffRef_set m i j x)
              0 n m) as [m' [Hrun Hm']].
  - lia.
  - now replace (j * n + 0)%N with (j * n)%N by lia.
  - intros i m1 Hi Hm1. apply addMOs_cell; auto; lia.
  - exists m'. split; [exact Hrun|].
    now replace (N.succ j * n)%N with (j * n + n)%N by lia.
Qed.

Lemma resize_shape (m : MatrixXd) (n : N) :
  wellFormed m ->
  rows (resize m n n) = n /\ cols (resize m n n) = n /\
  size (coeffs (resize m n n)) = (n * n)%N.
Proof.
  unfold wellFormed, resize. intros Hwf.
  destruct (N.eqb_spec (n * n) (msize m)) as [He|Hne]; simpl.
  - repeat split. congruence.
  - repeat split. unfold size. rewrite repeat_length. lia.
Qed.

(** C6 (as the code has it): with [n = m_numMOs > 0] and an input of at
    most [n] columns ([columns = len(input) / n]), [addMOs] returns; the MO
    matrix is then [n] x [n], coefficient [(i, j)] of each of the first
    [columns] columns is [input[i + j * n]], and every coefficient of a later
    column is what the resized storage held: nothing writes it. *)
Theorem addMOs_fills_leading_columns (g : GaussianSet) (MOs : list R) :
  let n := m_numMOs g in
  let columns := (size MOs / n)%N in
  (0 < n)%N -> (columns <= n)%N -> (size MOs < 4294967296)%N ->
  wellFormed (m_moMatrix g) ->
  exists g' out,
    addMOs g MOs = Some (g', out) /\
    rows (m_moMatrix g') = n /\ cols (m_moMatrix g') = n /\
    (forall i j, (i < n)%N -> (j < columns)%N ->
       exists x, vget MOs (i + j * n) = Some x /\
                 coeffRef (m_moMatrix g') i j = Some x) /\
    (forall i j, (i < n)%N -> (columns <= j < n)%N ->
       coeffRef (m_moMatrix g') i j
       = coeffRef (resize (m_moMatrix g) n n) i j).
Proof.
  intros n columns Hn Hcols Hsz Hwf.
  destruct (resize_shape (m_moMatrix g) n Hwf) as [Hr0 [Hc0 Hl0]].
  set (m0 := resize (m_moMatrix g) n n) in *.
  assert (Hdiv : (columns * n <= size MOs)%N).
  { subst columns. rewrite N.mul_comm. apply N.Div0.mul_div_le. }
  destruct (for_range_invariant
              (fun j m => Shaped n MOs (coeffs m0) (j * n) m)
              (addMOs_column MOs n) 0 columns m0)
    as [m [Hrun [Hr Hc [Hl Hf]]]].
  - lia.
  - constructor; auto. split; [reflexivity|].
    intros k. split; [lia|reflexivity].
  - intros j m1 Hj Hm1. apply addMOs_column_fills; auto; nia.
  - unfold addMOs. fold n. destruct (N.eqb_spec n 0) as [Hz|_]; [lia|].
    fold columns. rewrite (u32_small columns) by nia.
    fold m0. rewrite Hrun. simpl. do 2 eexists. split; [reflexivity|].
    simpl. split; [exact Hr|]. split; [exact Hc|]. split.
    + intros i j Hi Hj.
      destruct (vget_defined MOs (i + j * n)%N) as [x Hx]; [nia|].
      exists x. split; [exact Hx|].
      unfold coeffRef. rewrite Hr, Hc.
      apply N.ltb_lt in Hi as Hi'.
      assert (Hj' : (j <? n)%N = true) by (apply N.ltb_lt; lia).
      rewrite Hi', Hj'. simpl.
      destruct (Hf (i + j * n)%N) as [Hlt _].
      rewrite Hlt by nia. rewrite Hx. reflexivity.
    + intros i j Hi Hj. unfold coeffRef. rewrite Hr, Hc, Hr0, Hc0.
      destruct (Hf (i + j * n)%N) as [_ Hge].
      rewrite Hge by nia. reflexivity.
Qed.

Lemma addMOs_fills_leading_columns_witness :
  exists g' out,
    addMOs (built twoShells) [1.0; 0.0] = Some (g', out) /\
    rows (m_moMatrix g') = 2%N /\ cols (m_moMatrix g') = 2%N /\
    coeffRef (m_moMatrix g') 1 0 = Some 0.0 /\
    coeffRef (m_moMatrix g') 1 1 = None.
Proof.
  destruct (addMOs_fills_leading_columns (built twoShells) [1.0; 0.0])
    as [g' [out [Hadd [Hr [Hc [Hlead Hrest]]]]]].
  - reflexivity.
  - vm_compute. discriminate.
  - reflexivity.
  - reflexivity.
  - exists g', out. split; [exact Hadd|].
    split; [exact Hr|]. split; [exact Hc|]. split.
    + destruct (Hlead 1%N 0%N) as [x [Hx Hcoeff]]; [reflexivity..|].
      rewrite Hcoeff. rewrite <- Hx. reflexivity.
    + rewrite Hrest; [reflexivity | reflexivity | ].
      split; [vm_compute; discriminate | reflexivity].
Defined.

(** C6, the claim as stated fails: when a basis of two S shells gets all
    four coefficients and then the two of a file that holds one MO, the
    second column still holds the coefficients of the first load. *)
Lemma second_load_keeps_the_old_column :
  exists x,
    (g <- twoShellsTwoLoads ;; coeffRef (m_moMatrix g) 1 1) = Some x /\
    x <> 0.
Proof. eexists. split; [reflexivity|]. lra. Qed.

(** ** Values at a point *)

Lemma isSmall_false (c : R) : 1e-20 <= c -> isSmall c = false.
Proof.
  intros Hc. unfold isSmall. destruct (Rlt_dec (-1e-20) c); [|reflexivity].
  destruct (Rlt_dec c 1e-20); [lra|reflexivity].
Qed.

Lemma isSmall_true (c : R) : -1e-20 < c < 1e-20 -> isSmall c = true.
Proof.
  intros Hc. unfold isSmall. destruct (Rlt_dec (-1e-20) c); [|lra].
  destruct (Rlt_dec c 1e-20); [reflexivity|lra].
Qed.

(** Run the evaluator on a concrete basis, leaving the real arithmetic and
    the test of [isSmall] in place. *)
Ltac evaluate :=
  cbv -[Rplus Rmult Rminus Ropp Rinv Rdiv IZR exp pow Rpower PI isSmall
        Rabs Rle Rlt].

Ltac evaluate_in H :=
  cbv -[Rplus Rmult Rminus Ropp Rinv Rdiv IZR exp pow Rpower PI isSmall
        Rabs Rle Rlt] in H.

(** [valueAt] is what the dispatched map stores: once [calculateCubeMO]
    has returned true, [processPoint] on a work item of that call writes the
    [valueAt] of the item's position, converted to Bohr. *)
Lemma processPoint_stores_valueAt (g : GaussianSet) (cube : Cube) (st : N)
    (r : Called) (sh : GaussianShell) (c : Cube) :
  calculateCubeMO g cube st = Returns r -> result r = true ->
  state sh = st ->
  processPoint (set_after r) c sh
  = (v <- valueAt g st (vscale (position c (pos sh)) ANGSTROM_TO_BOHR) ;;
     Some (setValue c (pos sh) v)).
Proof.
  unfold calculateCubeMO, valueAt, valueAtWith.
  destruct (_ || _)%bool.
  - intros [= <-]. discriminate.
  - destruct (initCalculation g) as [[g1 out]|]; [|discriminate].
    unfold dispatch. destruct (cube_lock cube); [|discriminate].
    intros [= <-] _ Hst. unfold processPoint. rewrite Hst. reflexivity.
Qed.

(** C1: for hydrogen at the origin with one S shell, one primitive with
    exponent 1.0 and coefficient 1.0, and the identity MO matrix, the value
    of state 1 at the point [p] (in Bohr), at distance r with r^2 =
    [squaredNorm p], is within 1e-12 of alpha^(3/4) * 0.71270547 *
    exp(-alpha * r^2), alpha = 1.0. *)
Theorem analytic_S_value (p : Vector3d) :
  exists v,
    (g <- sBasis ;; valueAt g 1 p) = Some v /\
    Rabs (v - Rpower 1.0 (3 / 4) * 0.71270547
              * exp (- (1.0 * squaredNorm p))) <= 1e-12.
Proof.
  destruct p as [x y z]. evaluate.
  rewrite isSmall_false by lra.
  eexists. split; [reflexivity|].
  match goal with |- Rabs ?e <= _ => replace e with 0 end.
  - rewrite Rabs_R0. lra.
  - unfold pow. replace (75 * / 100) with (3 / 4) by lra.
    match goal with |- context [exp ?a] =>
      replace a with (- (10 * / 10 * (x * x + y * y + z * z))) by lra
    end.
    lra.
Qed.

(** The value of the S basis is the same at (x, 0, 0) and at (0, 0, x). *)
Lemma S_value_rotation (x : R) :
  exists v,
    (g <- sBasis ;; valueAt g 1 (mkVector3d x 0 0)) = Some v /\
    (g <- sBasis ;; valueAt g 1 (mkVector3d 0 0 x)) = Some v.
Proof.
  evaluate. rewrite isSmall_false by lra.
  eexists. split; [reflexivity|].
  match goal with |- Some ?l = Some ?r =>
    match l with context [exp ?b] =>
      match r with context [exp ?a] => replace a with b by lra end
    end
  end.
  reflexivity.
Qed.

(** C7: for one atom at the origin with one P shell (exponent 1.0,
    coefficient 1.0) and MO coefficients (1, 0, 0) for state 1, the value at
    (d, 0, 0) is the negation of the value at (-d, 0, 0), and the value at
    (0, d, 0) and at (0, 0, d) is zero, for every d. *)
Theorem P_shell_symmetry (d : R) :
  exists v,
    (g <- pBasis ;; valueAt g 1 (mkVector3d d 0 0)) = Some v /\
    (g <- pBasis ;; valueAt g 1 (mkVector3d (- d) 0 0)) = Some (- v) /\
    (g <- pBasis ;; valueAt g 1 (mkVector3d 0 d 0)) = Some 0 /\
    (g <- pBasis ;; valueAt g 1 (mkVector3d 0 0 d)) = Some 0.
Proof.
  eexists. split; [evaluate; reflexivity|].
  split; [|split]; evaluate; f_equal.
  - replace (- d - 0) with (- (d - 0)) by lra.
    replace (- (d - 0) * - (d - 0)) with ((d - 0) * (d - 0)) by lra.
    lra.
  - lra.
  - lra.
Qed.

(** ** clone *)

(** C3, the code at the failing input: [clone] copies every member but
    [m_molecule], so the clone has no atoms.  For the S basis of scenario A
    the original has a value at every point, while the clone's evaluation
    indexes the empty [dr2] vector for its first shell. *)
Theorem clone_leaves_the_molecule_behind (p : Vector3d) :
  (forall g, m_molecule (clone g) = emptyMolecule /\
             m_moMatrix (clone g) = m_moMatrix g) /\
  (exists v, (g <- sBasis ;; valueAt g 1 p) = Some v) /\
  (g <- sBasis ;; valueAt (clone g) 1 p) = None.
Proof.
  split; [|split].
  - intros g. split; reflexivity.
  - evaluate. rewrite isSmall_false by lra. eexists. reflexivity.
  - reflexivity.
Qed.

(** ** The small-coefficient shortcut *)

Lemma pointS_shortcut_exact (set : GaussianSet) (i : N) (dr2 : R)
    (indexMO : N) (v : R) :
  (forall row c, vget (m_moIndices set) i = Some row ->
                 coeffRef (m_moMatrix set) row indexMO = Some c ->
                 isSmall c = true -> c = 0) ->
  pointS_noShortcut set i dr2 indexMO = Some v ->
  pointS set i dr2 indexMO = Some v.
Proof.
  intros Hzero. unfold pointS_noShortcut, pointS.
  destruct (vget (m_moIndices set) i) as [row|] eqn:Hrow; simpl;
    [|discriminate].
  destruct (coeffRef (m_moMatrix set) row indexMO) as [c|] eqn:Hc; simpl;
    [|discriminate].
  destruct (isSmall c) eqn:Hsmall; [|auto].
  rewrite (Hzero row c eq_refl Hc Hsmall).
  destruct (vget (m_cIndices set) i); simpl; [|discriminate].
  destruct (gtoBounds set i); simpl; [|discriminate].
  destruct (for_range _ _ _ _); simpl; [|discriminate].
  intros [= <-]. f_equal. lra.
Qed.

(** C8 (as the code has it): only the S kernel has the shortcut.  Over the
    reals, for every normalized basis, MO column and point such that every
    S shell whose coefficient [isSmall] has the coefficient 0, the value
    computed without the shortcut is the value the code computes. *)
Theorem shortcut_exact_when_small_means_zero
    (set : GaussianSet) (indexMO : N) (p : Vector3d) (v : R) :
  smallMeansZero set indexMO ->
  moValue_noShortcut set indexMO p = Some v ->
  moValue set indexMO p = Some v.
Proof.
  intros Hzero. unfold moValue_noShortcut, moValue, moValueWith.
  destruct (atomDeltas set p) as [[deltas dr2]|]; simpl; [|discriminate].
  unfold for_range. apply for_from_agree.
  intros i tmp tmp'. unfold shellValue.
  destruct (vget (m_symmetry set) i) as [t|] eqn:Ht; simpl; [|discriminate].
  destruct t; auto.
  destruct (vget (m_atomIndices set) i) as [a|]; simpl; [|discriminate].
  destruct (vget dr2 a) as [r|]; simpl; [|discriminate].
  destruct (pointS_noShortcut set i r indexMO) as [w|] eqn:Hw; simpl;
    [|discriminate].
  rewrite (pointS_shortcut_exact set i r indexMO w); auto.
  intros row c. now apply Hzero.
Qed.

Lemma shortcut_exact_when_small_means_zero_witness :
  exists v,
    moValue_noShortcut normalizedZero 0 origin = Some v /\
    moValue normalizedZero 0 origin = Some v.
Proof.
  eexists. split; [evaluate; reflexivity|].
  apply (shortcut_exact_when_small_means_zero normalizedZero 0 origin).
  - intros i row c Hs Hrow Hc Hsmall.
    apply vget_in_range in Hs as Hi. change (i < 1)%N in Hi.
    assert (i = 0%N) by lia. subst i.
    evaluate_in Hrow. injection Hrow as <-.
    evaluate_in Hc. injection Hc as <-. lra.
  - evaluate. reflexivity.
Defined.

(** The P kernel has no shortcut: with the first MO coefficient of the P
    shell at 1e-21, the value at (1, 0, 0) is not zero. *)
Lemma pointP_has_no_shortcut :
  exists v,
    (g <- pBasisTiny ;; valueAt g 1 (mkVector3d 1 0 0)) = Some v /\ v <> 0.
Proof.
  eexists. split; [evaluate; reflexivity|].
  unfold pow.
  assert (0 < Rpower (10 * / 10) (125 * / 100))
    by (unfold Rpower; apply exp_pos).
  match goal with |- context [exp ?a] => pose proof (exp_pos a) end.
  nra.
Qed.

(** C8, the claim as stated fails: with the MO coefficient 1e-21 on the S
    basis of scenario A, the code gives 0 at the origin and the sum without
    the shortcut does not. *)
Lemma shortcut_changes_the_value :
  exists v w,
    (g <- sBasisTiny ;; valueAt g 1 origin) = Some v /\
    (g <- sBasisTiny ;; valueAt_noShortcut g 1 origin) = Some w /\
    v <> w.
Proof.
  eexists. eexists. split; [|split].
  - evaluate. rewrite isSmall_true by lra. reflexivity.
  - evaluate. reflexivity.
  - unfold pow.
    match goal with |- context [exp ?a] => replace a with 0 by lra end.
    rewrite exp_0.
    assert (0 < Rpower (10 * / 10) (75 * / 100))
      by (unfold Rpower; apply exp_pos).
    nra.
Qed.

(** * Further properties of the code *)

(** ** What the normalization pass and the evaluator change *)

(** The members the normalization pass leaves alone, and what it does to
    [m_gtoIndices] and [m_init]. *)
Lemma normalize_effect (g g1 : GaussianSet) (out : list DebugLine) :
  normalize g = Some (g1, out) ->
  m_molecule g1 = m_molecule g /\ m_symmetry g1 = m_symmetry g /\
  m_atomIndices g1 = m_atomIndices g /\
  m_gtoA g1 = m_gtoA g /\ m_gtoC g1 = m_gtoC g /\
  m_numMOs g1 = m_numMOs g /\
  m_gtoIndices g1 = m_gtoIndices g ++ [u32 (size (m_gtoA g))] /\
  m_init g1 = true.
Proof.
  unfold normalize. destruct (for_range _ _ _ _); simpl; [|discriminate].
  intros [= <- _]. repeat split.
Qed.

Lemma dispatch_effect (g : GaussianSet) (cube : Cube) (st : N)
    (tag : CubeType) (fn : MapFunction) (out : list DebugLine)
    (g' : GaussianSet) :
  after (dispatch g cube st tag fn out) = Some g' ->
  g' = withWork g (workArray cube st) fn.
Proof.
  unfold dispatch. destruct (cube_lock cube); simpl; [|discriminate].
  intros [= <-]. reflexivity.
Qed.

(** A property of sets that the normalization pass and the start of a map
    keep is kept by every call, once the mutators keep it. *)
Lemma call_keeps (Inv : GaussianSet -> Prop) :
  (forall g g1 out, Inv g -> normalize g = Some (g1, out) -> Inv g1) ->
  (forall g shells fn, Inv g -> Inv (withWork g shells fn)) ->
  (forall g p z, Inv g -> Inv (snd (addAtom g p z))) ->
  (forall g atom t, Inv g -> Inv (snd (addBasis g atom t))) ->
  (forall g c a, Inv g -> Inv (snd (addGTO g 0 c a))) ->
  (forall g init m, Inv g -> Inv (set_moMatrix g init m)) ->
  (forall g m, Inv g -> Inv (snd (setDensityMatrix g m))) ->
  (forall g cube, Inv g -> Inv (fst (calculationComplete g cube))) ->
  forall c g g', Inv g -> call c g = Some g' -> Inv g'.
Proof.
  intros Hnorm Hwork Hatom Hbasis Hgto Hmo Hdens Hdone c g g' Hg.
  assert (Hinit : forall g1 out, initCalculation g = Some (g1, out) -> Inv g1).
  { unfold initCalculation. destruct (m_init g).
    - intros g1 out [= <- _]. exact Hg.
    - intros g1 out. apply Hnorm. exact Hg. }
  destruct c; simpl; intros Hc.
  - injection Hc as <-. now apply Hatom.
  - injection Hc as <-. now apply Hbasis.
  - injection Hc as <-. now apply Hgto.
  - unfold addMOs in Hc. destruct (m_numMOs g =? 0)%N; [discriminate|].
    destruct (for_range _ _ _ _); simpl in Hc; [|discriminate].
    injection Hc as <-. now apply Hmo.
  - injection Hc as <-. now apply Hmo.
  - injection Hc as <-. now apply Hdens.
  - unfold calculateCubeMO in Hc. destruct (_ || _)%bool.
    + injection Hc as <-. exact Hg.
    + destruct (initCalculation g) as [[g1 out]|]; [|discriminate].
      apply dispatch_effect in Hc. subst g'.
      apply Hwork. now apply (Hinit g1 out).
  - unfold calculateCubeDensity in Hc. destruct (_ =? _)%N.
    + injection Hc as <-. exact Hg.
    + destruct (initCalculation g) as [[g1 out]|]; [|discriminate].
      apply dispatch_effect in Hc. subst g'.
      apply Hwork. now apply (Hinit g1 out).
  - injection Hc as <-. now apply (Hdone g cube).
Qed.

Lemma calls_keep_invariant (Inv : GaussianSet -> Prop) :
  (forall c g g', Inv g -> call c g = Some g' -> Inv g') ->
  forall cs g0 g, Inv g0 -> calls cs g0 = Some g -> Inv g.
Proof.
  intros Hstep cs. induction cs as [|c rest IH]; simpl; intros g0 g H0 Hcs.
  - injection Hcs as <-. exact H0.
  - destruct (call c g0) as [g1|] eqn:Hc; simpl in Hcs; [|discriminate].
    apply (IH g1); [|exact Hcs]. now apply (Hstep c g0).
Qed.

Lemma componentSum_app (l : list orbital) (t : orbital) :
  componentSum (l ++ [t]) = (componentSum l + components t)%N.
Proof.
  induction l as [|h r IH]; simpl.
  - lia.
  - rewrite IH. lia.
Qed.

Lemma u32_add_l (a k : N) : u32 (u32 a + k) = u32 (a + k).
Proof. unfold u32. now rewrite N.Div0.add_mod_idemp_l. Qed.

(** X1: whatever calls are made on a set since its construction, the count
    [m_numMOs] is the sum, modulo 2^32, of the component counts of its
    shells (S 1, P 3, SP 4, D 6, D5 5, F 8, F7 7, any other type 0). *)
Theorem numMOs_counts_components (cs : list Call) (g : GaussianSet) :
  calls cs newGaussianSet = Some g ->
  m_numMOs g = u32 (componentSum (m_symmetry g)).
Proof.
  apply (calls_keep_invariant
           (fun g => m_numMOs g = u32 (componentSum (m_symmetry g))));
    [|reflexivity].
  apply call_keeps; try (intros; assumption).
  - intros g0 g1 out H0 Hn. apply normalize_effect in Hn.
    destruct Hn as (_ & Hs & _ & _ & _ & Hm & _). now rewrite Hm, Hs.
  - intros g0 atom t H0. simpl. rewrite componentSum_app.
    destruct t; rewrite H0, ?u32_add_l; simpl components;
      rewrite ?N.add_0_r; reflexivity.
Qed.

Lemma numMOs_counts_components_witness :
  m_numMOs (built threeShells) = 9%N /\
  m_symmetry (built threeShells) = [S; P; D5].
Proof.
  split; [|reflexivity].
  rewrite (numMOs_counts_components threeShells (built threeShells) eq_refl).
  reflexivity.
Defined.

Lemma size_app1 {A : Type} (l : list A) (a : A) :
  size (l ++ [a]) = (size l + 1)%N.
Proof. unfold size. rewrite length_app. simpl. lia. Qed.

Lemma vget_app1 {A : Type} (l : list A) (a : A) :
  vget (l ++ [a]) (size l) = Some a.
Proof.
  unfold vget, size. rewrite Nat2N.id.
  rewrite nth_error_app2 by lia. now rewrite Nat.sub_diag.
Qed.

Lemma vget_app_old {A : Type} (l r : list A) (i : N) :
  (i < size l)%N -> vget (l ++ r) i = vget l i.
Proof.
  unfold vget, size. intros Hi. apply nth_error_app1. lia.
Qed.

Lemma u32_le (n : N) : (u32 n <= n)%N.
Proof. unfold u32. apply N.Div0.mod_le. Qed.

Lemma u32_sub_succ (n : N) : (n < 4294967296)%N -> u32_sub (n + 1) 1 = n.
Proof.
  intros Hn. unfold u32_sub. rewrite (u32_small 1) by lia.
  replace (n + 1 + 4294967296 - 1)%N with (n + 1 * 4294967296)%N by lia.
  unfold u32. rewrite N.Div0.mod_add. now apply N.mod_small.
Qed.

(** The steps of the alignment invariant. *)
Lemma addBasis_keeps_aligned (g : GaussianSet) (atom : N) (t : orbital) :
  Aligned g -> Aligned (snd (addBasis g atom t)).
Proof.
  intros [Hs Hp Hi]. constructor; simpl; auto.
  now rewrite !size_app1, Hs.
Qed.

Lemma addGTO_keeps_aligned (g : GaussianSet) (k : N) (c a : R) :
  Aligned g -> Aligned (snd (addGTO g k c a)).
Proof.
  intros [Hs Hp Hi]. constructor; simpl; auto.
  - now rewrite !size_app1, Hp.
  - assert (Hold : Forall (fun k => (k <= size (m_gtoA g ++ [a]))%N)
                          (m_gtoIndices g)).
    { eapply Forall_impl; [|exact Hi]. intros k' Hk. simpl in Hk.
      rewrite size_app1. lia. }
    destruct (_ <? _)%N; [|exact Hold].
    apply Forall_app. split; [exact Hold|]. constructor; [|constructor].
    rewrite size_app1. pose proof (u32_le (size (m_gtoA g))). lia.
Qed.

Lemma normalize_keeps_aligned (g g1 : GaussianSet) (out : list DebugLine) :
  Aligned g -> normalize g = Some (g1, out) -> Aligned g1.
Proof.
  intros [Hs Hp Hi] Hn. apply normalize_effect in Hn.
  destruct Hn as (_ & Hsym & Hat & Ha & Hc & _ & Hidx & _).
  constructor.
  - now rewrite Hat, Hsym.
  - now rewrite Hc, Ha.
  - rewrite Hidx, Ha. apply Forall_app. split; [exact Hi|].
    constructor; [apply u32_le | constructor].
Qed.

(** X2: whatever calls are made on a set since its construction, its
    parallel vectors stay aligned: [m_atomIndices] is as long as
    [m_symmetry], [m_gtoC] as long as [m_gtoA], and no entry of
    [m_gtoIndices] points past the primitives. *)
Theorem built_sets_are_aligned (cs : list Call) (g : GaussianSet) :
  calls cs newGaussianSet = Some g -> Aligned g.
Proof.
  apply (calls_keep_invariant Aligned).
  - apply call_keeps.
    + intros g0 g1 out. apply normalize_keeps_aligned.
    + intros g0 shells fn [Hs Hp Hi]. now constructor.
    + intros g0 p z [Hs Hp Hi]. now constructor.
    + intros g0 atom t. apply addBasis_keeps_aligned.
    + intros g0 c a. apply addGTO_keeps_aligned.
    + intros g0 init m [Hs Hp Hi]. now constructor.
    + intros g0 m [Hs Hp Hi]. now constructor.
    + intros g0 cube [Hs Hp Hi]. now constructor.
  - constructor; simpl; [reflexivity | reflexivity | constructor].
Qed.

Lemma built_sets_are_aligned_witness :
  size (m_atomIndices (built threeShells)) = 3%N /\
  size (m_symmetry (built threeShells)) = 3%N /\
  Aligned (built threeShells).
Proof.
  split; [reflexivity|]. split; [reflexivity|].
  apply (built_sets_are_aligned threeShells). reflexivity.
Defined.

Lemma numAtoms_addAtom (m : Molecule) (p : Vector3d) (z : Z) :
  numAtoms (mol_addAtom m p z) = (numAtoms m + 1)%N.
Proof. unfold numAtoms, mol_addAtom. cbv [atoms]. apply size_app1. Qed.

Lemma atomPos_addAtom (m : Molecule) (p : Vector3d) (z : Z) :
  atomPos (mol_addAtom m p z) (numAtoms m) = Some p.
Proof.
  unfold atomPos, numAtoms, mol_addAtom. cbv [atoms].
  fold (atoms m). now rewrite vget_app1.
Qed.

(** X3: each builder returns the zero-based index of what it appended, and
    the appended atom, shell or primitive is found at that index (for
    vectors of fewer than 2^32 elements). *)
Theorem builders_return_the_new_index (g : GaussianSet) :
  Aligned g ->
  (numAtoms (m_molecule g) < 4294967296)%N ->
  (size (m_symmetry g) < 4294967296)%N ->
  (size (m_gtoA g) < 4294967296)%N ->
  (forall p z,
     let r := addAtom g p z in
     fst r = numAtoms (m_molecule g) /\
     atomPos (m_molecule (snd r)) (fst r) = Some p) /\
  (forall atom t,
     let r := addBasis g atom t in
     fst r = size (m_symmetry g) /\
     vget (m_symmetry (snd r)) (fst r) = Some t /\
     vget (m_atomIndices (snd r)) (fst r) = Some atom) /\
  (forall k c a,
     let r := addGTO g k c a in
     fst r = size (m_gtoA g) /\
     vget (m_gtoA (snd r)) (fst r) = Some a /\
     vget (m_gtoC (snd r)) (fst r) = Some c).
Proof.
  intros [Hs Hp Hi] Hatoms Hshells Hprims. split; [|split].
  - intros p z r. subst r. unfold addAtom. cbv [fst snd m_molecule].
    fold (m_molecule g). rewrite numAtoms_addAtom.
    rewrite u32_sub_succ by exact Hatoms. split; [reflexivity|].
    apply atomPos_addAtom.
  - intros atom t r. subst r. simpl. rewrite size_app1.
    rewrite u32_sub_succ by exact Hshells. split; [reflexivity|].
    split; [apply vget_app1|]. rewrite <- Hs. apply vget_app1.
  - intros k c a r. subst r. simpl. rewrite size_app1.
    rewrite u32_sub_succ by exact Hprims. split; [reflexivity|].
    split; [apply vget_app1|]. rewrite <- Hp. apply vget_app1.
Qed.

Lemma threeShells_aligned : Aligned (built threeShells).
Proof.
  constructor.
  - vm_compute. reflexivity.
  - vm_compute. reflexivity.
  - vm_compute. repeat constructor; discriminate.
Qed.

Lemma builders_return_the_new_index_witness :
  fst (addBasis (built threeShells) 0 D) = 3%N /\
  vget (m_symmetry (snd (addBasis (built threeShells) 0 D))) 3 = Some D.
Proof.
  destruct (builders_return_the_new_index (built threeShells))
    as (_ & Hbasis & _).
  - exact threeShells_aligned.
  - vm_compute. reflexivity.
  - vm_compute. reflexivity.
  - vm_compute. reflexivity.
  - destruct (Hbasis 0%N D) as (Hidx & Hsym & _).
    assert (Hsz : size (m_symmetry (built threeShells)) = 3%N)
      by (vm_compute; reflexivity).
    split.
    + rewrite <- Hsz. exact Hidx.
    + rewrite <- Hsz. exact Hsym.
Defined.

(** ** The normalization pass *)

Lemma back_app1 (cn : list R) (x : R) : back (cn ++ [x]) = Some x.
Proof. unfold back. now rewrite rev_app_distr. Qed.

Lemma push_back_back_app1 (cn : list R) (x : R) :
  push_back_back (cn ++ [x]) = Some ((cn ++ [x]) ++ [x]).
Proof. unfold push_back_back. now rewrite back_app1. Qed.

(** A loop whose body is defined at every index it visits runs to its end,
    whatever its bounds. *)
Lemma for_range_defined {St : Type} (body : N -> St -> option St)
    (lo hi : N) (s : St) :
  (forall k s, (lo <= k < hi)%N -> exists s', body k s = Some s') ->
  exists s', for_range lo hi body s = Some s'.
Proof.
  intros Hstep. unfold for_range.
  destruct (for_from_invariant (fun _ _ => True) body
              (N.to_nat (hi - lo)) lo s Logic.I) as [s' [Hrun _]].
  - intros k s0 Hk _. destruct (Hstep k s0) as [s1 Hs1]; [lia|]. eauto.
  - eauto.
Qed.

(** What holds before a loop and is kept by every step that is defined
    holds after the loop, when the loop returns. *)
Lemma for_from_preserves {St : Type} (P : N -> St -> Prop)
    (body : N -> St -> option St) (n : nat) :
  (forall k s s', P k s -> body k s = Some s' -> P (N.succ k) s') ->
  forall i s s', P i s -> for_from n i body s = Some s' ->
                 P (i + N.of_nat n)%N s'.
Proof.
  intros Hstep. induction n as [|n IH]; simpl; intros i s s' Hs Hrun.
  - injection Hrun as <-. now replace (i + 0)%N with i by lia.
  - destruct (body i s) as [s1|] eqn:Hb; simpl in Hrun; [|discriminate].
    replace (i + N.pos (Pos.of_succ_nat n))%N
      with (N.succ i + N.of_nat n)%N by lia.
    apply (IH _ s1); [|exact Hrun]. now apply (Hstep i s).
Qed.

Section NormalizeDefined.

Variable g : GaussianSet.
Hypothesis Hprims : size (m_gtoC g) = size (m_gtoA g).

Lemma primitive_defined (j : N) :
  (j < size (m_gtoA g))%N ->
  exists c a, vget (m_gtoC g) j = Some c /\ vget (m_gtoA g) j = Some a.
Proof.
  intros Hj.
  destruct (vget_defined (m_gtoC g) j) as [c Hc]; [now rewrite Hprims|].
  destruct (vget_defined (m_gtoA g) j Hj) as [a Ha]. eauto.
Qed.

Lemma normS_defined (j : N) (cn : list R) :
  (j < size (m_gtoA g))%N -> exists cn', normS g j cn = Some cn'.
Proof.
  intros Hj. destruct (primitive_defined j Hj) as (c & a & Hc & Ha).
  unfold normS. rewrite Hc, Ha. simpl. eauto.
Qed.

Lemma normP_defined (j : N) (cn : list R) :
  (j < size (m_gtoA g))%N -> exists cn', normP g j cn = Some cn'.
Proof.
  intros Hj. destruct (primitive_defined j Hj) as (c & a & Hc & Ha).
  unfold normP. rewrite Hc, Ha. cbn [bind].
  repeat (rewrite push_back_back_app1; cbn [bind]). eauto.
Qed.

Lemma normD_defined (j : N) (cn : list R) :
  (j < size (m_gtoA g))%N -> exists cn', normD g j cn = Some cn'.
Proof.
  intros Hj. destruct (primitive_defined j Hj) as (c & a & Hc & Ha).
  unfold normD. rewrite Hc, Ha. cbn [bind].
  repeat (rewrite push_back_back_app1; cbn [bind]). eauto.
Qed.

Lemma normD5_defined (j : N) (cn : list R) :
  (j < size (m_gtoA g))%N -> exists cn', normD5 g j cn = Some cn'.
Proof.
  intros Hj. destruct (primitive_defined j Hj) as (c & a & Hc & Ha).
  unfold normD5. rewrite Hc, Ha. cbn [bind].
  repeat (rewrite push_back_back_app1; cbn [bind]). eauto.
Qed.

End NormalizeDefined.

Lemma size_vresize {A : Type} (v : list A) (n : N) (d : A) :
  size (vresize v n d) = n.
Proof.
  unfold size, vresize. rewrite length_app, length_firstn, repeat_length. lia.
Qed.

Lemma Forall_vget {A : Type} (P : A -> Prop) (l : list A) (i : N) (a : A) :
  Forall P l -> vget l i = Some a -> P a.
Proof.
  intros Hall Hget. unfold vget in Hget. apply nth_error_In in Hget.
  rewrite Forall_forall in Hall. now apply Hall.
Qed.

(** The bounds of the primitives of shell [i], read from the extended
    [m_gtoIndices], exist and lie within the primitives. *)
Lemma shell_bounds_defined (g : GaussianSet) (i : N) :
  Aligned g ->
  (size (m_symmetry g) <= size (m_gtoIndices g))%N ->
  (size (m_symmetry g) < 4294967296)%N ->
  (i < size (m_symmetry g))%N ->
  let gtoIndices := m_gtoIndices g ++ [u32 (size (m_gtoA g))] in
  exists lo hi,
    vget gtoIndices i = Some lo /\ vget gtoIndices (u32 (i + 1)) = Some hi /\
    (hi <= size (m_gtoA g))%N.
Proof.
  intros [_ _ Hidx] Hlen Hn Hi gtoIndices.
  assert (Hall : Forall (fun k => (k <= size (m_gtoA g))%N) gtoIndices).
  { apply Forall_app. split; [exact Hidx|].
    constructor; [apply u32_le | constructor]. }
  assert (Hsize : size gtoIndices = (size (m_gtoIndices g) + 1)%N)
    by apply size_app1.
  rewrite (u32_small (i + 1)) by lia.
  destruct (vget_defined gtoIndices i) as [lo Hlo]; [lia|].
  destruct (vget_defined gtoIndices (i + 1)%N) as [hi Hhi]; [lia|].
  exists lo, hi. split; [exact Hlo|]. split; [exact Hhi|].
  exact (Forall_vget _ _ _ _ Hall Hhi).
Qed.

Lemma initHandled_defined (g : GaussianSet) (i width : N)
    (norm : N -> list R -> option (list R)) (st : InitState) :
  Aligned g ->
  (size (m_symmetry g) <= size (m_gtoIndices g))%N ->
  (size (m_symmetry g) < 4294967296)%N ->
  (i < size (m_symmetry g))%N ->
  size (moIndices st) = size (m_symmetry g) ->
  (forall j cn, (j < size (m_gtoA g))%N -> exists cn', norm j cn = Some cn') ->
  exists st',
    initHandled (m_gtoIndices g ++ [u32 (size (m_gtoA g))]) i width norm st
    = Some st' /\
    size (moIndices st') = size (m_symmetry g).
Proof.
  intros Hal Hlen Hn Hi Hmo Hnorm. unfold initHandled.
  destruct (vset_defined (moIndices st) i (indexMO st)) as [moI HmoI];
    [now rewrite Hmo|].
  rewrite HmoI. cbn [bind].
  destruct (shell_bounds_defined g i Hal Hlen Hn Hi)
    as (lo & hi & Hlo & Hhi & Hbound).
  rewrite Hlo, Hhi. cbn [bind].
  destruct (for_range_defined norm lo hi (gtoCN st)) as [cn Hcn].
  { intros j cn Hj. apply Hnorm. lia. }
  rewrite Hcn. cbn [bind]. eexists. split; [reflexivity|]. simpl.
  apply vset_spec in HmoI. destruct HmoI as [Hsz _]. now rewrite Hsz.
Qed.

(** X4: on a set whose vectors are aligned and in which every shell has its
    entry in [m_gtoIndices], the normalization pass reads nothing out of
    range: it returns, the set is then marked normalized, it has one MO
    offset per shell and the atom count of the molecule. *)
Theorem normalize_is_defined (g : GaussianSet) :
  Aligned g ->
  (size (m_symmetry g) <= size (m_gtoIndices g))%N ->
  (size (m_symmetry g) < 4294967296)%N ->
  exists g1 out,
    normalize g = Some (g1, out) /\
    m_init g1 = true /\
    size (m_moIndices g1) = size (m_symmetry g) /\
    m_numAtoms g1 = u32 (numAtoms (m_molecule g)).
Proof.
  intros Hal Hlen Hn. unfold normalize.
  pose proof (aligned_primitives g Hal) as Hprims.
  match goal with |- context [for_range 0 ?n ?body ?st0] =>
    destruct (for_range_invariant
                (fun _ st => size (moIndices st) = size (m_symmetry g))
                body 0 n st0) as [st [Hrun Hst]]
  end.
  - lia.
  - apply size_vresize.
  - intros i st Hi Hst. unfold initShell.
    destruct (vget_defined (m_symmetry g) i) as [t Ht]; [lia|].
    rewrite Ht. cbn [bind].
    destruct t;
      try (apply initHandled_defined; auto; try lia;
           intros j cn Hj;
           first [ now apply normS_defined | now apply normP_defined
                 | now apply normD_defined | now apply normD5_defined ]);
      try (eexists; split; [reflexivity | exact Hst]);
      destruct (vset_defined (moIndices st) i (indexMO st)) as [moI HmoI];
      try (rewrite Hst; lia);
      rewrite HmoI; cbn [bind]; eexists; (split; [reflexivity|]); simpl;
      apply vset_spec in HmoI; destruct HmoI as [Hsz _]; now rewrite Hsz.
  - rewrite Hrun. cbn [bind]. do 2 eexists. split; [reflexivity|].
    simpl. auto.
Qed.

Lemma normalize_is_defined_witness :
  exists g1 out,
    normalize (built threeShells) = Some (g1, out) /\
    m_init g1 = true /\
    size (m_moIndices g1) = 3%N /\
    m_numAtoms g1 = 1%N.
Proof.
  destruct (normalize_is_defined (built threeShells))
    as (g1 & out & Hn & Hinit & Hmo & Hatoms).
  - exact threeShells_aligned.
  - vm_compute. discriminate.
  - vm_compute. reflexivity.
  - exists g1, out. split; [exact Hn|]. split; [exact Hinit|]. split.
    + rewrite Hmo. vm_compute. reflexivity.
    + rewrite Hatoms. vm_compute. reflexivity.
Defined.

Lemma firstn_succ_nth {A : Type} (l : list A) (k : nat) (a : A) :
  nth_error l k = Some a ->
  firstn (Datatypes.S k) l = firstn k l ++ [a].
Proof.
  revert k. induction l as [|h t IH]; intros [|k]; simpl; try discriminate.
  - now intros [= ->].
  - intros Hk. f_equal. now apply IH.
Qed.

Lemma firstn_succ_vget {A : Type} (l : list A) (i : N) (a : A) :
  vget l i = Some a ->
  firstn (N.to_nat (N.succ i)) l = firstn (N.to_nat i) l ++ [a].
Proof.
  unfold vget. rewrite N2Nat.inj_succ. apply firstn_succ_nth.
Qed.

Lemma firstn_size {A : Type} (l : list A) : firstn (N.to_nat (size l)) l = l.
Proof. unfold size. rewrite Nat2N.id. apply firstn_all. Qed.

Lemma countShells_app1 (f : orbital -> bool) (l : list orbital) (t : orbital) :
  countShells f (l ++ [t])
  = (countShells f l + if f t then 1 else 0)%N.
Proof.
  unfold countShells, size. rewrite filter_app, length_app. simpl.
  destruct (f t); simpl; lia.
Qed.

Lemma initHandled_bookkeeping (gtoIndices : list N) (i width : N)
    (norm : N -> list R -> option (list R)) (st st' : InitState) :
  initHandled gtoIndices i width norm st = Some st' ->
  cIndices st' = cIndices st ++ [u32 (size (gtoCN st))] /\
  debugOut st' = debugOut st.
Proof.
  unfold initHandled.
  destruct (vset _ _ _); cbn [bind]; [|discriminate].
  destruct (vget gtoIndices i); cbn [bind]; [|discriminate].
  destruct (vget gtoIndices _); cbn [bind]; [|discriminate].
  destruct (for_range _ _ _ _); cbn [bind]; [|discriminate].
  intros [= <-]. split; reflexivity.
Qed.

Lemma initShell_bookkeeping (g : GaussianSet) (gtoIndices c0 : list N)
    (i : N) (st st' : InitState) :
  Bookkept g c0 i st ->
  initShell g gtoIndices i st = Some st' ->
  Bookkept g c0 (N.succ i) st'.
Proof.
  intros [[added [Hc Hadded]] Hout]. unfold initShell, Bookkept.
  destruct (vget (m_symmetry g) i) as [t|] eqn:Ht; cbn [bind];
    [|discriminate].
  rewrite (firstn_succ_vget _ _ _ Ht), !countShells_app1.
  destruct t;
    try (intros Hh; apply initHandled_bookkeeping in Hh;
         destruct Hh as [Hc' Hout']; rewrite Hc', Hout', Hc, <- app_assoc;
         split; [eexists; split; [reflexivity|]; rewrite size_app1, Hadded;
                 reflexivity
                | rewrite Hout; simpl; lia]);
    try (destruct (vset _ _ _); cbn [bind]; [|discriminate]);
    intros [= <-]; simpl; rewrite ?size_app1, Hout;
    (split; [|reflexivity]).
  all: try (exists added; split; [exact Hc | rewrite Hadded; lia]).
  all: rewrite Hc, <- app_assoc; eexists; split; [reflexivity|];
       rewrite size_app1, Hadded; reflexivity.
Qed.

(** X5: the normalization pass never clears [m_gtoIndices] or
    [m_cIndices].  Each pass that returns appends one entry to
    [m_gtoIndices], appends to [m_cIndices] one offset per shell other than
    SP, and writes one diagnostic per shell of a type other than S, P, D
    and D5. *)
Theorem normalize_appends_its_bookkeeping
    (g g1 : GaussianSet) (out : list DebugLine) :
  normalize g = Some (g1, out) ->
  m_gtoIndices g1 = m_gtoIndices g ++ [u32 (size (m_gtoA g))] /\
  (exists added,
     m_cIndices g1 = m_cIndices g ++ added /\
     size added = countShells recordsOffset (m_symmetry g)) /\
  size out = countShells notEvaluated (m_symmetry g).
Proof.
  intros Hn. split; [now apply normalize_effect in Hn|].
  unfold normalize in Hn.
  match type of Hn with context [for_range 0 ?n ?body ?st0] =>
    destruct (for_range 0 n body st0) as [st|] eqn:Hrun;
      cbn [bind] in Hn; [|discriminate];
    assert (Hbook : Bookkept g (m_cIndices g) n st)
  end.
  { unfold for_range in Hrun. rewrite N.sub_0_r in Hrun.
    rewrite <- (N2Nat.id (size (m_symmetry g))) at 1.
    change (N.of_nat (N.to_nat (size (m_symmetry g))))
      with (0 + N.of_nat (N.to_nat (size (m_symmetry g))))%N.
    eapply (for_from_preserves (Bookkept g (m_cIndices g))); [| |exact Hrun].
    - intros k s s'. apply initShell_bookkeeping.
    - split; [exists []; split; [now rewrite app_nil_r|]|]; reflexivity. }
  injection Hn as <- <-. simpl.
  unfold Bookkept in Hbook. rewrite firstn_size in Hbook. exact Hbook.
Qed.

Lemma normalize_appends_its_bookkeeping_witness :
  exists g1 out,
    normalize (built (twoShells ++ [CallAddBasis 0 SP; CallAddBasis 0 G]))
    = Some (g1, out) /\
    size (m_cIndices g1) = 3%N /\ size out = 2%N.
Proof.
  destruct (normalize
              (built (twoShells ++ [CallAddBasis 0 SP; CallAddBasis 0 G])))
    as [[g1 out]|] eqn:Hn.
  - exists g1, out. split; [reflexivity|].
    destruct (normalize_appends_its_bookkeeping _ g1 out Hn)
      as (_ & (added & Hc & Hadded) & Hout).
    split; [|exact Hout].
    rewrite Hc. exact Hadded.
  - vm_compute in Hn. discriminate.
Defined.

(** ** The kernels *)

Lemma for_from_related {St : Type} (Rel : St -> St -> Prop)
    (b1 b2 : N -> St -> option St) (n : nat) :
  (forall k s1 s2, Rel s1 s2 -> related Rel (b1 k s1) (b2 k s2)) ->
  forall i s1 s2, Rel s1 s2 ->
    related Rel (for_from n i b1 s1) (for_from n i b2 s2).
Proof.
  intros Hstep. induction n as [|n IH]; simpl; intros i s1 s2 Hs.
  - exact Hs.
  - specialize (Hstep i s1 s2 Hs). unfold related in Hstep.
    destruct (b1 i s1) as [t1|], (b2 i s2) as [t2|]; simpl;
      try contradiction; [now apply IH | exact Logic.I].
Qed.

(** X6: the initialisation is memoized: once [initCalculation] has
    returned, the set is marked normalized and a further call returns the
    same set and writes nothing. *)
Theorem initCalculation_is_memoized
    (g g1 : GaussianSet) (out : list DebugLine) :
  initCalculation g = Some (g1, out) ->
  m_init g1 = true /\ initCalculation g1 = Some (g1, []).
Proof.
  intros Hinit.
  assert (Hflag : m_init g1 = true).
  { unfold initCalculation in Hinit. destruct (m_init g) eqn:Hg.
    - injection Hinit as <- _. exact Hg.
    - now apply normalize_effect in Hinit. }
  split; [exact Hflag|]. unfold initCalculation. now rewrite Hflag.
Qed.

Lemma initCalculation_is_memoized_witness :
  exists g1 out,
    initCalculation (built threeShells) = Some (g1, out) /\
    initCalculation g1 = Some (g1, []).
Proof.
  destruct (initCalculation (built threeShells)) as [[g1 out]|] eqn:Hinit.
  - exists g1, out. split; [reflexivity|].
    apply (initCalculation_is_memoized _ g1 out Hinit).
  - vm_compute in Hinit. discriminate.
Defined.

(** X7: the P kernel is odd and the D and D5 kernels are even in the
    displacement from the atom: negating [delta] (at the same [dr2]) negates
    the contribution of a P shell and leaves that of a D or D5 shell as it
    is, for every set, shell and MO column. *)
Theorem kernel_parity (set : GaussianSet) (moIndex : N) (delta : Vector3d)
    (dr2 : R) (indexMO : N) :
  pointP set moIndex (vneg delta) dr2 indexMO
  = option_map Ropp (pointP set moIndex delta dr2 indexMO) /\
  pointD set moIndex (vneg delta) dr2 indexMO
  = pointD set moIndex delta dr2 indexMO /\
  pointD5 set moIndex (vneg delta) dr2 indexMO
  = pointD5 set moIndex delta dr2 indexMO.
Proof.
  split; [|split].
  - unfold pointP.
    destruct (vget (m_moIndices set) moIndex) as [baseIndex|]; cbn [bind];
      [|reflexivity].
    destruct (vget (m_cIndices set) moIndex) as [cIndex|]; cbn [bind];
      [|reflexivity].
    destruct (gtoBounds set moIndex) as [[lo hi]|]; cbn [bind fst snd];
      [|reflexivity].
    unfold for_range.
    match goal with
      |- bind (for_from ?n ?i ?b2 ?s) _ = option_map _ (bind (for_from _ _ ?b1 _) _) =>
      pose proof (for_from_related
                    (fun s1 s2 : R * R * R * N =>
                       let '(x1, y1, z1, c1) := s1 in
                       let '(x2, y2, z2, c2) := s2 in
                       x2 = - x1 /\ y2 = - y1 /\ z2 = - z1 /\ c2 = c1)
                    b1 b2 n) as Hrel;
      specialize (fun H => Hrel H i s s)
    end.
    match type of Hrel with (?A -> ?B -> _) =>
      assert (Hstep : A); [| assert (Hs : B);
        [| specialize (Hrel Hstep Hs); clear Hstep Hs]]
    end.
    + intros k [[[x1 y1] z1] c1] [[[x2 y2] z2] c2] (-> & -> & -> & ->).
      unfold related.
      destruct (tmpGTO set k dr2) as [e|]; cbn [bind]; [|exact Logic.I].
      destruct (vget (m_gtoCN set) c1) as [cx|]; cbn [bind]; [|exact Logic.I].
      destruct (vget (m_gtoCN set) (u32 (c1 + 1))) as [cy|]; cbn [bind];
        [|exact Logic.I].
      destruct (vget (m_gtoCN set) (u32 (c1 + 2))) as [cz|]; cbn [bind];
        [|exact Logic.I].
      simpl. repeat split; lra.
    + repeat split; lra.
    + unfold related in Hrel.
      destruct (for_from _ _ _ _) as [[[[x1 y1] z1] c1]|],
               (for_from _ _ _ _) as [[[[x2 y2] z2] c2]|];
        try contradiction; cbn [bind]; [|reflexivity].
      destruct Hrel as (-> & -> & -> & _).
      destruct (coeffRef _ baseIndex _); cbn [bind]; [|reflexivity].
      destruct (coeffRef _ (u32 (baseIndex + 1)) _); cbn [bind];
        [|reflexivity].
      destruct (coeffRef _ (u32 (baseIndex + 2)) _); cbn [bind];
        [|reflexivity].
      simpl. f_equal. lra.
  - unfold pointD.
    destruct (vget (m_moIndices set) moIndex); cbn [bind]; [|reflexivity].
    destruct (vget (m_cIndices set) moIndex); cbn [bind]; [|reflexivity].
    destruct (gtoBounds set moIndex); cbn [bind]; [|reflexivity].
    destruct (for_range _ _ _ _) as [[[[[[[xx yy] zz] xy] xz] yz] c]|];
      cbn [bind]; [|reflexivity].
    repeat (destruct (coeffRef _ _ _); cbn [bind]; [|reflexivity]).
    simpl. f_equal. ring.
  - unfold pointD5.
    destruct (vget (m_moIndices set) moIndex); cbn [bind]; [|reflexivity].
    destruct (vget (m_cIndices set) moIndex); cbn [bind]; [|reflexivity].
    destruct (gtoBounds set moIndex); cbn [bind]; [|reflexivity].
    destruct (for_range _ _ _ _) as [[[[[[d0 d1p] d1n] d2p] d2n] c]|];
      cbn [bind]; [|reflexivity].
    repeat (destruct (coeffRef _ _ _); cbn [bind]; [|reflexivity]).
    simpl. f_equal. ring.
Qed.

(** X8: the shortcut of the S kernel is a threshold on the magnitude of the
    shell's MO coefficient: below 1e-20 the kernel returns 0 whatever the
    primitives are, and from 1e-20 on it is the kernel without the
    shortcut. *)
Theorem pointS_shortcut_threshold (set : GaussianSet) (moIndex : N)
    (dr2 : R) (indexMO row : N) (c : R) :
  vget (m_moIndices set) moIndex = Some row ->
  coeffRef (m_moMatrix set) row indexMO = Some c ->
  (Rabs c < 1e-20 -> pointS set moIndex dr2 indexMO = Some 0) /\
  (1e-20 <= Rabs c ->
   pointS set moIndex dr2 indexMO
   = pointS_noShortcut set moIndex dr2 indexMO).
Proof.
  intros Hrow Hc. unfold pointS, pointS_noShortcut.
  rewrite Hrow. cbn [bind]. rewrite Hc. cbn [bind]. split.
  - intros Habs. apply Rabs_def2 in Habs.
    rewrite isSmall_true by lra. f_equal. lra.
  - intros Habs. destruct (isSmall c) eqn:Hsmall; [|reflexivity].
    exfalso. unfold isSmall in Hsmall.
    destruct (Rlt_dec (-1e-20) c) as [Hlo|]; [|discriminate].
    destruct (Rlt_dec c 1e-20) as [Hhi|]; [|discriminate].
    assert (Rabs c < 1e-20) by (apply Rabs_def1; lra). lra.
Qed.

Lemma pointS_shortcut_threshold_witness :
  pointS normalizedZero 0 1 0 = Some 0.
Proof.
  apply (pointS_shortcut_threshold normalizedZero 0 1 0 0 0.0).
  - reflexivity.
  - reflexivity.
  - rewrite Rabs_right; lra.
Defined.

(** ** [addMOs] outside its domain *)

Lemma for_from_app {St : Type} (body : N -> St -> option St) (a b : nat) :
  forall i s,
    for_from (a + b) i body s
    = (s' <- for_from a i body s ;; for_from b (i + N.of_nat a)%N body s').
Proof.
  induction a as [|a IH]; intros i s.
  - simpl. now replace (i + 0)%N with i by lia.
  - cbn [for_from Nat.add]. destruct (body i s) as [s1|]; cbn [bind];
      [|reflexivity].
    rewrite IH. now replace (N.succ i + N.of_nat a)%N
      with (i + N.of_nat (Datatypes.S a))%N by lia.
Qed.

(** X9: [addMOs] has no check on its input.  With [m_numMOs] zero it
    divides by zero, and with more than [m_numMOs] columns of input it
    writes column [m_numMOs], which is outside the matrix: in both cases its
    behaviour is undefined. *)
Theorem addMOs_outside_its_domain (g : GaussianSet) (MOs : list R) :
  let n := m_numMOs g in
  let columns := (size MOs / n)%N in
  wellFormed (m_moMatrix g) -> (size MOs < 4294967296)%N ->
  (n = 0 \/ n < columns)%N ->
  addMOs g MOs = None.
Proof.
  intros n columns Hwf Hsz Hout. unfold addMOs. fold n.
  destruct (N.eqb_spec n 0) as [Hz|Hnz]; [reflexivity|].
  destruct Hout as [Hz|Hmany]; [contradiction|].
  assert (Hdiv : (columns * n <= size MOs)%N).
  { subst columns. rewrite N.mul_comm. apply N.Div0.mul_div_le. }
  fold columns. rewrite (u32_small columns) by nia.
  destruct (resize_shape (m_moMatrix g) n Hwf) as [Hr0 [Hc0 Hl0]].
  set (m0 := resize (m_moMatrix g) n n) in *.
  unfold for_range. rewrite N.sub_0_r.
  replace (N.to_nat columns)
    with (N.to_nat n + Datatypes.S (N.to_nat (columns - n - 1)))%nat by lia.
  rewrite for_from_app.
  destruct (for_range_invariant
              (fun j m => Shaped n MOs (coeffs m0) (j * n) m)
              (addMOs_column MOs n) 0 n m0) as [m [Hrun [Hr Hc _]]].
  - lia.
  - constructor; auto. split; [reflexivity|].
    intros k. split; [lia|reflexivity].
  - intros j m1 Hj Hm1. apply addMOs_column_fills; auto; nia.
  - unfold for_range in Hrun. rewrite N.sub_0_r in Hrun.
    rewrite Hrun. cbn [bind for_from].
    assert (Hcol : addMOs_column MOs n (0 + N.of_nat (N.to_nat n)) m = None).
    { rewrite N2Nat.id, N.add_0_l. unfold addMOs_column, for_range.
      rewrite N.sub_0_r.
      replace (N.to_nat n) with (Datatypes.S (N.to_nat (n - 1))) by lia.
      cbn [for_from].
      rewrite (u32_small (n * n)) by nia.
      rewrite u32_small by nia.
      destruct (vget_defined MOs (0 + n * n)%N) as [x Hx]; [nia|].
      rewrite Hx. cbn [bind]. unfold coeffRef_set. rewrite Hr, Hc.
      rewrite N.ltb_irrefl, andb_false_r. reflexivity. }
    rewrite Hcol. reflexivity.
Qed.

Lemma addMOs_outside_its_domain_witness :
  addMOs (built twoShells) [1.0; 0.0; 0.0; 1.0; 0.5; 0.5] = None /\
  addMOs newGaussianSet [1.0] = None.
Proof.
  split.
  - apply (addMOs_outside_its_domain (built twoShells)).
    + reflexivity.
    + reflexivity.
    + right. reflexivity.
  - apply (addMOs_outside_its_domain newGaussianSet).
    + reflexivity.
    + reflexivity.
    + left. reflexivity.
Defined.

(** ** The map over the samples of a cube *)

Lemma setValue_frame (c : Cube) (i : N) (v : R) : sameFrame c (setValue c i v).
Proof.
  unfold setValue, sameFrame. destruct (vset _ _ _); simpl; auto.
Qed.

Lemma sameFrame_position (c c' : Cube) (i : N) :
  sameFrame c c' -> position c' i = position c i.
Proof.
  intros (Ho & Hs & Hp & _). unfold position. now rewrite Ho, Hs, Hp.
Qed.

Lemma sameFrame_trans (c1 c2 c3 : Cube) :
  sameFrame c1 c2 -> sameFrame c2 c3 -> sameFrame c1 c3.
Proof.
  intros (A1 & A2 & A3 & A4 & A5) (B1 & B2 & B3 & B4 & B5).
  unfold sameFrame. repeat split; congruence.
Qed.

Lemma setValue_data (c : Cube) (i : N) (v : R) :
  (i < size (cube_data c))%N ->
  size (cube_data (setValue c i v)) = size (cube_data c) /\
  vget (cube_data (setValue c i v)) i = Some v /\
  forall k, k <> i ->
    vget (cube_data (setValue c i v)) k = vget (cube_data c) k.
Proof.
  intros Hi. unfold setValue.
  destruct (vset_defined (cube_data c) i v Hi) as [d Hd]. rewrite Hd. simpl.
  now apply vset_spec.
Qed.

(** The map over the items of the samples [a], ..., [a + k - 1], run in
    that order, stores the value of each of these samples and leaves the
    others, the grid, the tag and the lock alone. *)
Lemma mapProcessPoint_items (set : GaussianSet) (st : N) (k : nat) :
  forall (a : nat) (c : Cube),
    (a + k <= List.length (cube_data c))%nat ->
    (forall i, (a <= i < a + k)%nat ->
       exists v, moValue set (u32_sub st 1) (samplePoint c (N.of_nat i))
                 = Some v) ->
    exists c',
      mapProcessPoint set (workItems st a k) c = Some c' /\
      sameFrame c c' /\
      size (cube_data c') = size (cube_data c) /\
      (forall i, (i < a)%nat \/ (a + k <= i)%nat ->
         vget (cube_data c') (N.of_nat i) = vget (cube_data c) (N.of_nat i)) /\
      (forall i, (a <= i < a + k)%nat ->
         vget (cube_data c') (N.of_nat i)
         = moValue set (u32_sub st 1) (samplePoint c (N.of_nat i))).
Proof.
  induction k as [|k IH]; intros a c Hlen Hdef.
  - exists c. simpl. split; [reflexivity|].
    split; [unfold sameFrame; auto|]. split; [reflexivity|].
    split; [reflexivity | intros i Hi; lia].
  - destruct (Hdef a) as [v Hv]; [lia|].
    unfold workItems. cbn [seq map mapProcessPoint].
    unfold processPoint at 1. cbn [pos state].
    fold (samplePoint c (N.of_nat a)). rewrite Hv. cbn [bind].
    set (c1 := setValue c (N.of_nat a) v).
    pose proof (setValue_frame c (N.of_nat a) v) as Hframe1. fold c1 in Hframe1.
    destruct (setValue_data c (N.of_nat a) v) as (Hsz1 & Hget1 & Hother1).
    { unfold size. lia. }
    fold c1 in Hsz1, Hget1, Hother1.
    assert (Hpoint : forall i, samplePoint c1 i = samplePoint c i).
    { intros i. unfold samplePoint. now rewrite (sameFrame_position c c1). }
    destruct (IH (Datatypes.S a) c1) as (c' & Hrun & Hframe & Hsz & Hout & Hin).
    { unfold size in Hsz1. lia. }
    { intros i Hi. rewrite Hpoint. apply Hdef. lia. }
    exists c'. fold (workItems st (Datatypes.S a) k). split; [exact Hrun|].
    split; [now apply (sameFrame_trans c c1 c')|].
    split; [congruence|]. split.
    + intros i Hi. rewrite Hout by lia. apply Hother1. lia.
    + intros i Hi. destruct (Nat.eq_dec i a) as [->|Hne].
      * rewrite Hout by lia. now rewrite Hget1, Hv.
      * rewrite Hin by lia. now rewrite Hpoint.
Qed.

Lemma initCalculation_sets_init (g g1 : GaussianSet) (out : list DebugLine) :
  initCalculation g = Some (g1, out) -> m_init g1 = true.
Proof.
  unfold initCalculation. destruct (m_init g) eqn:Hg.
  - now intros [= <- _].
  - intros Hn. now apply normalize_effect in Hn.
Qed.

(** X10: a computation followed from its dispatch to its completion.  When
    the cube is unlocked and has samples, and the MO value of state [st] is
    defined at every sample point, [calculateCubeMO] returns true and, once
    the map has run and [calculationComplete] has been called, every sample
    of the cube is the MO value at its position (in Bohr); the cube is
    tagged MO and unlocked again, the work array is freed and the set is
    normalized. *)
Theorem calculateCubeMO_fills_the_cube
    (g : GaussianSet) (cube : Cube) (st : N) :
  cube_lock cube = Unlocked ->
  (0 < size (cube_data cube))%N ->
  (forall i, (i < size (cube_data cube))%N ->
     exists v, valueAt g st (samplePoint cube i) = Some v) ->
  exists r,
    calculateCubeMO_completed g cube st = Some r /\
    result r = true /\
    cube_type (cube_after r) = MO /\
    cube_lock (cube_after r) = Unlocked /\
    m_gaussianShells (set_after r) = None /\
    m_init (set_after r) = true /\
    size (cube_data (cube_after r)) = size (cube_data cube) /\
    forall i, (i < size (cube_data cube))%N ->
      vget (cube_data (cube_after r)) i = valueAt g st (samplePoint cube i).
Proof.
  intros Hlock Hsize Hdef.
  destruct (Hdef 0%N Hsize) as [v0 Hv0].
  unfold valueAt, valueAtWith in Hv0, Hdef |- *.
  unfold calculateCubeMO_completed, calculateCubeMO.
  destruct (_ || _)%bool; [discriminate|].
  destruct (initCalculation g) as [[g1 out]|] eqn:Hinit; [|discriminate].
  cbn [bind fst] in Hdef |- *. clear v0 Hv0.
  unfold dispatch. rewrite Hlock. cbn [result set_after cube_after debug_lines].
  cbn [m_gaussianShells bind].
  set (cube' := setCubeType (setLock cube LockedForWrite) MO).
  set (g' := mkGaussianSet _ _ _ _ _ _ _ _ _ _ _ _ _ _ _ _).
  destruct (mapProcessPoint_items g' st (List.length (cube_data cube)) 0 cube')
    as (c & Hrun & Hframe & Hsz & _ & Hin).
  - simpl. lia.
  - intros i Hi. destruct (Hdef (N.of_nat i)) as [v Hv];
      [unfold size; lia|].
    exists v. exact Hv.
  - change (workArray cube st)
      with (workItems st 0 (List.length (cube_data cube))).
    rewrite Hrun. cbn [bind].
    assert (Hfin : finished g' c = Some (calculationComplete g' c)).
    { unfold finished. subst g'. cbn [m_gaussianShells]. unfold workArray.
      destruct (List.length (cube_data cube)) as [|n] eqn:Hlen.
      - unfold size in Hsize. rewrite Hlen in Hsize. lia.
      - reflexivity. }
    rewrite Hfin. cbn [bind]. eexists. split; [reflexivity|].
    cbn [result set_after cube_after fst snd calculationComplete].
    destruct Hframe as (_ & _ & _ & Htype & _).
    split; [reflexivity|]. split; [exact Htype|]. split; [reflexivity|].
    split; [reflexivity|].
    split; [subst g'; cbn [m_init];
            now apply (initCalculation_sets_init g g1 out)|].
    split; [exact Hsz|].
    intros i Hi. unfold setLock. cbn [cube_data].
    rewrite <- (N2Nat.id i). rewrite Hin by (unfold size in Hi; lia).
    reflexivity.
Qed.

Lemma sBasis_value_defined (p : Vector3d) :
  exists v, valueAt (built (oneShellCalls S 1.0 1.0 [1.0])) 1 p = Some v.
Proof.
  destruct p as [x y z]. evaluate. rewrite isSmall_false by lra.
  eexists. reflexivity.
Qed.

Lemma calculateCubeMO_fills_the_cube_witness :
  exists r,
    calculateCubeMO_completed (built (oneShellCalls S 1.0 1.0 [1.0]))
                              scenarioCube 1 = Some r /\
    result r = true /\
    vget (cube_data (cube_after r)) 13
    = valueAt (built (oneShellCalls S 1.0 1.0 [1.0])) 1
              (samplePoint scenarioCube 13).
Proof.
  destruct (calculateCubeMO_fills_the_cube
              (built (oneShellCalls S 1.0 1.0 [1.0])) scenarioCube 1)
    as (r & Hrun & Hres & _ & _ & _ & _ & _ & Hvalues).
  - reflexivity.
  - reflexivity.
  - intros i _. apply sBasis_value_defined.
  - exists r. split; [exact Hrun|]. split; [exact Hres|].
    apply Hvalues. reflexivity.
Defined.

Lemma list_update_comm {A : Type} (v : list A) (k k' : nat) (a b : A) :
  k <> k' ->
  list_update (list_update v k a) k' b = list_update (list_update v k' b) k a.
Proof.
  revert k k'. induction v as [|h t IH]; intros [|k] [|k'] Hne; simpl;
    try reflexivity; try congruence.
  f_equal. apply IH. congruence.
Qed.

Lemma setValue_unfold (c : Cube) (i : N) (v : R) :
  setValue c i v
  = if (i <? size (cube_data c))%N
    then mkCube (cube_origin c) (cube_spacing c) (cube_points c)
                (list_update (cube_data c) (N.to_nat i) v)
                (cube_type c) (cube_lock c)
    else c.
Proof.
  unfold setValue, vset. now destruct (i <? size (cube_data c))%N.
Qed.

Lemma setValue_comm (c : Cube) (i j : N) (v w : R) :
  i <> j \/ (i = j /\ v = w) ->
  setValue (setValue c i v) j w = setValue (setValue c j w) i v.
Proof.
  intros [Hne | [-> ->]]; [|reflexivity].
  rewrite (setValue_unfold c i v), (setValue_unfold c j w).
  destruct (i <? size (cube_data c))%N eqn:Hi;
    destruct (j <? size (cube_data c))%N eqn:Hj;
    rewrite !setValue_unfold; cbn [cube_data cube_origin cube_spacing
      cube_points cube_type cube_lock];
    unfold size in *; rewrite ?list_update_length; rewrite ?Hi, ?Hj;
    try reflexivity.
  f_equal. apply list_update_comm. lia.
Qed.

Lemma processPoint_comm (set : GaussianSet) (c : Cube) (x y : GaussianShell) :
  state x = state y ->
  (c1 <- processPoint set c x ;; processPoint set c1 y)
  = (c1 <- processPoint set c y ;; processPoint set c1 x).
Proof.
  intros Hst. unfold processPoint. rewrite Hst.
  fold (samplePoint c (pos x)). fold (samplePoint c (pos y)).
  destruct (moValue set _ (samplePoint c (pos x))) as [v|] eqn:Hv;
    destruct (moValue set _ (samplePoint c (pos y))) as [w|] eqn:Hw;
    cbn [bind]; rewrite ?(sameFrame_position _ _ _ (setValue_frame c _ _));
    fold (samplePoint c (pos x)); fold (samplePoint c (pos y));
    rewrite ?Hv, ?Hw; cbn [bind]; try reflexivity.
  f_equal. apply setValue_comm.
  destruct (N.eq_dec (pos x) (pos y)) as [He|Hne]; [right|now left].
  split; [exact He|]. rewrite He in Hv. congruence.
Qed.

Lemma mapProcessPoint_permutation (set : GaussianSet) (st : N)
    (l1 l2 : list GaussianShell) :
  Permutation l1 l2 ->
  Forall (fun sh => state sh = st) l1 ->
  forall c, mapProcessPoint set l1 c = mapProcessPoint set l2 c.
Proof.
  induction 1 as [| x l1 l2 Hperm IH | x y l | l1 l2 l3 H12 IH12 H23 IH23];
    intros Hall c.
  - reflexivity.
  - simpl. destruct (processPoint set c x); cbn [bind]; [|reflexivity].
    apply IH. now inversion Hall.
  - cbn [mapProcessPoint].
    pose proof (Forall_inv Hall) as Hy.
    pose proof (Forall_inv (Forall_inv_tail Hall)) as Hx.
    cbn beta in Hy, Hx.
    pose proof (processPoint_comm set c y x (eq_trans Hy (eq_sym Hx)))
      as Hcomm.
    destruct (processPoint set c y) as [cy|];
      destruct (processPoint set c x) as [cx|]; cbn [bind] in Hcomm |- *.
    + destruct (processPoint set cy x) as [cyx|];
        destruct (processPoint set cx y) as [cxy|]; cbn [bind];
        try discriminate; try reflexivity.
      now injection Hcomm as ->.
    + destruct (processPoint set cy x); [discriminate | reflexivity].
    + destruct (processPoint set cx y); [discriminate | reflexivity].
    + reflexivity.
  - rewrite IH12 by exact Hall. apply IH23.
    apply (Permutation_Forall H12). exact Hall.
Qed.

Lemma workArray_states (cube : Cube) (st : N) :
  Forall (fun sh => state sh = st) (workArray cube st).
Proof.
  unfold workArray. apply Forall_map. apply Forall_forall. reflexivity.
Qed.

(** X11: the order in which the workers of the map take the items of the
    work array does not matter: run over any permutation of the work array,
    one item at a time, [processPoint] leaves the same cube (or stops at the
    same undefined access) as run in the array's order. *)
Theorem map_order_is_irrelevant (set : GaussianSet) (cube c : Cube) (st : N)
    (shells : list GaussianShell) :
  Permutation shells (workArray cube st) ->
  mapProcessPoint set shells c = mapProcessPoint set (workArray cube st) c.
Proof.
  intros Hperm. apply (mapProcessPoint_permutation set st); [exact Hperm|].
  apply (Permutation_Forall (Permutation_sym Hperm)).
  apply workArray_states.
Qed.

Lemma map_order_is_irrelevant_witness :
  mapProcessPoint normalizedZero (rev (workArray scenarioCube 1)) scenarioCube
  = mapProcessPoint normalizedZero (workArray scenarioCube 1) scenarioCube.
Proof.
  apply (map_order_is_irrelevant normalizedZero scenarioCube scenarioCube 1).
  apply Permutation_sym. apply Permutation_rev.
Defined.

(** ** The density sum *)

Lemma for_range_preserves {St : Type} (P : St -> Prop)
    (body : N -> St -> option St) (lo hi : N) (s s' : St) :
  (forall k s s', (lo <= k < hi)%N -> P s -> body k s = Some s' -> P s') ->
  P s -> for_range lo hi body s = Some s' -> P s'.
Proof.
  unfold for_range. intros Hstep.
  assert (Hgen : forall n i s s',
             (lo <= i)%N -> (i + N.of_nat n <= N.max lo hi)%N ->
             P s -> for_from n i body s = Some s' -> P s').
  { induction n as [|n IH]; simpl; intros i s0 s1 Hlo Hhi Hs Hrun.
    - now injection Hrun as <-.
    - destruct (body i s0) as [s2|] eqn:Hb; simpl in Hrun; [|discriminate].
      apply (IH (N.succ i) s2 s1); try lia; [|exact Hrun].
      apply (Hstep i s0 s2); [lia | exact Hs | exact Hb]. }
  intros Hs Hrun.
  apply (Hgen (N.to_nat (hi - lo)) lo s s'); try lia; assumption.
Qed.

Lemma for_range_ext {St : Type} (b1 b2 : N -> St -> option St)
    (lo hi : N) (s : St) :
  (forall k s, (lo <= k < hi)%N -> b1 k s = b2 k s) ->
  for_range lo hi b1 s = for_range lo hi b2 s.
Proof.
  unfold for_range. intros Hext.
  assert (Hgen : forall n i s,
             (lo <= i)%N -> (i + N.of_nat n <= N.max lo hi)%N ->
             for_from n i b1 s = for_from n i b2 s).
  { induction n as [|n IH]; simpl; intros i s0 Hlo Hhi; [reflexivity|].
    rewrite Hext by lia. destruct (b2 i s0) as [s1|]; simpl; [|reflexivity].
    apply IH; lia. }
  apply Hgen; lia.
Qed.

Lemma rhoRow_nonnegative (density values : MatrixXd) (i : N) (rho rho' : R) :
  diagonalNonNegative density ->
  0 <= rho -> rhoRow density values i rho = Some rho' -> 0 <= rho'.
Proof.
  intros [Hoff Hdiag] Hrho. unfold rhoRow.
  destruct (for_range 0 i _ rho) as [rho1|] eqn:Hrun; cbn [bind];
    [|discriminate].
  assert (H1 : 0 <= rho1).
  { apply (for_range_preserves (fun r => 0 <= r)) in Hrun;
      [exact Hrun | | exact Hrho].
    intros j r r' Hj Hr.
    destruct (coeffRef density i j) as [dij|] eqn:Hd; cbn [bind];
      [|discriminate].
    destruct (coeffRef values i 0) as [vi|]; cbn [bind]; [|discriminate].
    destruct (coeffRef values j 0) as [vj|]; cbn [bind]; [|discriminate].
    intros [= <-]. rewrite (Hoff i j dij) by (lia || exact Hd). lra. }
  destruct (coeffRef density i i) as [dii|] eqn:Hd; cbn [bind];
    [|discriminate].
  destruct (coeffRef values i 0) as [vi|]; cbn [bind]; [|discriminate].
  intros [= <-]. pose proof (Hdiag i dii Hd). nra.
Qed.

(** X12: with a density matrix that is zero below its diagonal and not
    negative on it, the density [processDensity] computes at a point is not
    negative, for every set and every point at which it is defined. *)
Theorem density_is_not_negative (set : GaussianSet) (p : Vector3d) (rho : R) :
  diagonalNonNegative (m_density set) ->
  rhoValue set p = Some rho -> 0 <= rho.
Proof.
  intros Hd. unfold rhoValue.
  destruct (atomDeltas set p) as [dd|]; cbn [bind]; [|discriminate].
  destruct (for_range _ _ _ _) as [values|]; cbn [bind]; [|discriminate].
  unfold rhoSum. intros Hrun.
  apply (for_range_preserves (fun r => 0 <= r)) in Hrun;
    [exact Hrun | | lra].
  intros i r r' _ Hr. now apply rhoRow_nonnegative.
Qed.

Lemma density_is_not_negative_witness :
  exists rho, rhoValue densityExample origin = Some rho /\ 0 <= rho.
Proof.
  eexists. split; [evaluate; reflexivity|].
  apply (density_is_not_negative densityExample origin).
  - split.
    + intros i j d Hj. unfold coeffRef. cbn [densityExample m_density snd
        setDensityMatrix rows cols].
      destruct (N.ltb_spec i 1) as [Hi|Hi]; [lia|]. discriminate.
    + intros i d. unfold coeffRef. cbn [densityExample m_density snd
        setDensityMatrix rows cols coeffs].
      destruct (N.ltb_spec i 1) as [Hi|Hi]; [|discriminate].
      assert (i = 0%N) by lia. subst i. evaluate. intros [= <-]. lra.
  - evaluate. reflexivity.
Defined.

(** X13: the density sum reads the density matrix on and below its diagonal
    only: two matrices that agree there give the same sum for the same
    basis values. *)
Theorem rhoSum_reads_the_lower_triangle
    (density density' values : MatrixXd) (matrixSize : N) :
  (forall i j, (j <= i)%N -> coeffRef density' i j = coeffRef density i j) ->
  rhoSum density' values matrixSize = rhoSum density values matrixSize.
Proof.
  intros Hlow. unfold rhoSum. apply for_range_ext. intros i rho _.
  unfold rhoRow.
  rewrite (for_range_ext
             (fun j rho => dij <- coeffRef density' i j ;;
                           vi <- coeffRef values i 0 ;;
                           vj <- coeffRef values j 0 ;;
                           Some (rho + 2.0 * dij * (vi * vj)))
             (fun j rho => dij <- coeffRef density i j ;;
                           vi <- coeffRef values i 0 ;;
                           vj <- coeffRef values j 0 ;;
                           Some (rho + 2.0 * dij * (vi * vj)))).
  - now rewrite (Hlow i i) by lia.
  - intros j r Hj. now rewrite (Hlow i j) by lia.
Qed.

Lemma rhoSum_reads_the_lower_triangle_witness :
  rhoSum lowerExample' columnExample 2 = rhoSum lowerExample columnExample 2.
Proof.
  apply (rhoSum_reads_the_lower_triangle lowerExample lowerExample').
  intros i j Hj. unfold coeffRef, lowerExample, lowerExample'.
  cbn [rows cols coeffs].
  destruct (N.ltb_spec i 2) as [Hi|Hi]; [|reflexivity].
  destruct (N.ltb_spec j 2) as [Hj2|Hj2]; [|reflexivity].
  assert (Hcases : (i = 0 /\ j = 0)%N \/ (i = 1 /\ j = 0)%N
                   \/ (i = 1 /\ j = 1)%N) by lia.
  destruct Hcases as [[-> ->] | [[-> ->] | [-> ->]]]; reflexivity.
Defined.

(** ** The two modes of the kernels *)

Lemma coeffRef_set_same (m m' : MatrixXd) (i j : N) (x : R) :
  coeffRef_set m i j x = Some m' -> coeffRef m' i j = Some x.
Proof.
  unfold coeffRef_set, coeffRef.
  destruct ((i <? rows m)%N && (j <? cols m)%N)%bool eqn:Hin; [|discriminate].
  destruct (vset (coeffs m) _ _) as [cs|] eqn:Hcs; cbn [bind]; [|discriminate].
  intros [= <-]. cbn [rows cols coeffs]. rewrite Hin.
  apply vset_spec in Hcs. destruct Hcs as (_ & Hget & _).
  now rewrite Hget.
Qed.

Lemma coeffRef_set_other (m m' : MatrixXd) (i i' j : N) (x : R) :
  coeffRef_set m i j x = Some m' -> i' <> i ->
  coeffRef m' i' j = coeffRef m i' j.
Proof.
  unfold coeffRef_set, coeffRef.
  destruct ((i <? rows m)%N && (j <? cols m)%N)%bool eqn:Hin; [|discriminate].
  destruct (vset (coeffs m) _ _) as [cs|] eqn:Hcs; cbn [bind]; [|discriminate].
  intros [= <-] Hne. cbn [rows cols coeffs].
  destruct ((i' <? rows m)%N && (j <? cols m)%N)%bool eqn:Hin'; [|reflexivity].
  apply vset_spec in Hcs. destruct Hcs as (_ & _ & Hother).
  rewrite Hother; [reflexivity|]. lia.
Qed.

(** Read the rows a kernel has written back from the column it returned. *)
Ltac read_back :=
  repeat match goal with
         | H : coeffRef_set ?m ?i ?j ?x = Some ?m'
           |- context [coeffRef ?m' ?i ?j] =>
             rewrite (coeffRef_set_same m m' i j x H)
         | H : coeffRef_set ?m ?i ?j ?x = Some ?m'
           |- context [coeffRef ?m' ?i' ?j] =>
             rewrite (coeffRef_set_other m m' i i' j x H) by lia
         end.

(** Unroll the loop of [contract] over a shell of known width. *)
Ltac unroll_contract :=
  unfold contract, for_range;
  repeat match goal with
         | |- context [N.to_nat ?e] =>
             let v := eval vm_compute in (N.to_nat e) in
             change (N.to_nat e) with v
         end;
  cbn [for_from];
  repeat match goal with
         | |- context [N.succ ?e] =>
             let v := eval vm_compute in (N.succ e) in
             change (N.succ e) with v
         end.

(** The S kernels: the same loop in both modes. *)
Lemma pointS_contracts (set : GaussianSet) (moIndex : N) (dr2 : R)
    (indexMO base : N) (out out' : MatrixXd) :
  vget (m_moIndices set) moIndex = Some base ->
  (moIndex + 1 < 4294967296)%N ->
  pointS_values set dr2 moIndex out = Some out' ->
  pointS_noShortcut set moIndex dr2 indexMO
  = contract (m_moMatrix set) out' base 1 indexMO.
Proof.
  intros Hbase Hidx. unfold pointS_values, pointS_noShortcut, gtoBounds.
  rewrite Hbase, (u32_small (moIndex + 1)) by exact Hidx. cbn [bind].
  destruct (vget (m_cIndices set) moIndex) as [cIndex|]; cbn [bind];
    [|discriminate].
  destruct (vget (m_gtoIndices set) moIndex) as [lo|]; cbn [bind];
    [|discriminate].
  destruct (vget (m_gtoIndices set) (moIndex + 1)) as [hi|];
    cbn [bind fst snd]; [|discriminate].
  destruct (for_range lo hi _ _) as [[tmp c]|]; cbn [bind fst];
    [|discriminate].
  intros Hw. unroll_contract. rewrite N.add_0_r.
  destruct (coeffRef (m_moMatrix set) base indexMO) as [coeff|]; cbn [bind];
    [|reflexivity].
  read_back. cbn [bind]. f_equal. ring.
Qed.

(** The P kernels: the MO mode multiplies each term by the component of
    [delta], the value mode multiplies the sum. *)
Lemma pointP_contracts (set : GaussianSet) (moIndex : N) (delta : Vector3d)
    (dr2 : R) (indexMO base : N) (out out' : MatrixXd) :
  vget (m_moIndices set) moIndex = Some base ->
  (moIndex + 1 < 4294967296)%N -> (base + 5 < 4294967296)%N ->
  pointP_values set delta dr2 moIndex out = Some out' ->
  pointP set moIndex delta dr2 indexMO
  = contract (m_moMatrix set) out' base 3 indexMO.
Proof.
  intros Hbase Hidx Hrows. unfold pointP_values, pointP, gtoBounds.
  rewrite Hbase, (u32_small (moIndex + 1)) by exact Hidx. cbn [bind].
  destruct (vget (m_cIndices set) moIndex) as [cIndex|]; cbn [bind];
    [|discriminate].
  destruct (vget (m_gtoIndices set) moIndex) as [lo|]; cbn [bind];
    [|discriminate].
  destruct (vget (m_gtoIndices set) (moIndex + 1)) as [hi|];
    cbn [bind fst snd]; [|discriminate].
  unfold for_range.
  match goal with
    |- bind (for_from ?n ?i ?bV ?s) _ = _ ->
       bind (for_from _ _ ?bM _) _ = _ =>
    pose proof (for_from_related
                  (fun sV sM : R * R * R * N =>
                     let '(xV, yV, zV, cV) := sV in
                     let '(xM, yM, zM, cM) := sM in
                     xM = xV * vx delta /\ yM = yV * vy delta /\
                     zM = zV * vz delta /\ cM = cV)
                  bV bM n) as Hrel;
    specialize (fun H => Hrel H i s s)
  end.
  match type of Hrel with (?A -> ?B -> _) =>
    assert (Hstep : A); [| assert (Hs : B);
      [| specialize (Hrel Hstep Hs); clear Hstep Hs]]
  end.
  - intros k [[[xV yV] zV] cV] [[[xM yM] zM] cM] (-> & -> & -> & ->).
    unfold related.
    destruct (tmpGTO set k dr2) as [e|]; cbn [bind]; [|exact Logic.I].
    destruct (vget (m_gtoCN set) cV) as [cx|]; cbn [bind]; [|exact Logic.I].
    destruct (vget (m_gtoCN set) (u32 (cV + 1))) as [cy|]; cbn [bind];
      [|exact Logic.I].
    destruct (vget (m_gtoCN set) (u32 (cV + 2))) as [cz|]; cbn [bind];
      [|exact Logic.I].
    simpl. repeat split; try reflexivity; ring.
  - simpl. repeat split; try reflexivity; lra.
  - unfold related in Hrel.
    destruct (for_from _ _ _ _) as [[[[xV yV] zV] cV]|],
             (for_from _ _ _ _) as [[[[xM yM] zM] cM]|];
      try contradiction; cbn [bind]; [|discriminate].
    destruct Hrel as (-> & -> & -> & _).
    destruct (coeffRef_set out base 0 _) as [out1|] eqn:H1; cbn [bind];
      [|discriminate].
    destruct (coeffRef_set out1 (base + 1) 0 _) as [out2|] eqn:H2;
      cbn [bind]; [|discriminate].
    intros H3. unroll_contract.
    rewrite N.add_0_r, !u32_small by lia.
    destruct (coeffRef (m_moMatrix set) base indexMO) as [Px|]; cbn [bind];
      [|reflexivity].
    read_back. cbn [bind].
    destruct (coeffRef (m_moMatrix set) (base + 1) indexMO) as [Py|];
      cbn [bind]; [|reflexivity].
    read_back. cbn [bind].
    destruct (coeffRef (m_moMatrix set) (base + 2) indexMO) as [Pz|];
      cbn [bind]; [|reflexivity].
    read_back. cbn [bind]. f_equal. ring.
Qed.

(** The D kernels: the same loop in both modes, six rows. *)
Lemma pointD_contracts (set : GaussianSet) (moIndex : N) (delta : Vector3d)
    (dr2 : R) (indexMO base : N) (out out' : MatrixXd) :
  vget (m_moIndices set) moIndex = Some base ->
  (moIndex + 1 < 4294967296)%N -> (base + 5 < 4294967296)%N ->
  pointD_values set delta dr2 moIndex out = Some out' ->
  pointD set moIndex delta dr2 indexMO
  = contract (m_moMatrix set) out' base 6 indexMO.
Proof.
  intros Hbase Hidx Hrows. unfold pointD_values, pointD, gtoBounds.
  rewrite Hbase, (u32_small (moIndex + 1)) by exact Hidx. cbn [bind].
  destruct (vget (m_cIndices set) moIndex) as [cIndex|]; cbn [bind];
    [|discriminate].
  destruct (vget (m_gtoIndices set) moIndex) as [lo|]; cbn [bind];
    [|discriminate].
  destruct (vget (m_gtoIndices set) (moIndex + 1)) as [hi|];
    cbn [bind fst snd]; [|discriminate].
  destruct (for_range lo hi _ _) as [[[[[[[xx yy] zz] xy] xz] yz] c]|];
    cbn [bind]; [|discriminate].
  destruct (coeffRef_set out base 0 _) as [out1|] eqn:H1; cbn [bind];
    [|discriminate].
  destruct (coeffRef_set out1 (base + 1) 0 _) as [out2|] eqn:H2;
    cbn [bind]; [|discriminate].
  destruct (coeffRef_set out2 (base + 2) 0 _) as [out3|] eqn:H3;
    cbn [bind]; [|discriminate].
  destruct (coeffRef_set out3 (base + 3) 0 _) as [out4|] eqn:H4;
    cbn [bind]; [|discriminate].
  destruct (coeffRef_set out4 (base + 4) 0 _) as [out5|] eqn:H5;
    cbn [bind]; [|discriminate].
  intros H6. unroll_contract.
  rewrite N.add_0_r, !u32_small by lia.
  destruct (coeffRef (m_moMatrix set) base indexMO) as [m0|]; cbn [bind];
    [|reflexivity].
  read_back. cbn [bind].
  destruct (coeffRef (m_moMatrix set) (base + 1) indexMO) as [m1|];
    cbn [bind]; [|reflexivity].
  read_back. cbn [bind].
  destruct (coeffRef (m_moMatrix set) (base + 2) indexMO) as [m2|];
    cbn [bind]; [|reflexivity].
  read_back. cbn [bind].
  destruct (coeffRef (m_moMatrix set) (base + 3) indexMO) as [m3|];
    cbn [bind]; [|reflexivity].
  read_back. cbn [bind].
  destruct (coeffRef (m_moMatrix set) (base + 4) indexMO) as [m4|];
    cbn [bind]; [|reflexivity].
  read_back. cbn [bind].
  destruct (coeffRef (m_moMatrix set) (base + 5) indexMO) as [m5|];
    cbn [bind]; [|reflexivity].
  read_back. cbn [bind]. cbv zeta. f_equal. ring.
Qed.

(** The D5 kernels: the same loop in both modes, five rows. *)
Lemma pointD5_contracts (set : GaussianSet) (moIndex : N) (delta : Vector3d)
    (dr2 : R) (indexMO base : N) (out out' : MatrixXd) :
  vget (m_moIndices set) moIndex = Some base ->
  (moIndex + 1 < 4294967296)%N -> (base + 5 < 4294967296)%N ->
  pointD5_values set delta dr2 moIndex out = Some out' ->
  pointD5 set moIndex delta dr2 indexMO
  = contract (m_moMatrix set) out' base 5 indexMO.
Proof.
  intros Hbase Hidx Hrows. unfold pointD5_values, pointD5, gtoBounds.
  rewrite Hbase, (u32_small (moIndex + 1)) by exact Hidx. cbn [bind].
  destruct (vget (m_cIndices set) moIndex) as [cIndex|]; cbn [bind];
    [|discriminate].
  destruct (vget (m_gtoIndices set) moIndex) as [lo|]; cbn [bind];
    [|discriminate].
  destruct (vget (m_gtoIndices set) (moIndex + 1)) as [hi|];
    cbn [bind fst snd]; [|discriminate].
  destruct (for_range lo hi _ _) as [[[[[[d0 d1p] d1n] d2p] d2n] c]|];
    cbn [bind]; [|discriminate].
  cbv zeta.
  destruct (coeffRef_set out base 0 _) as [out1|] eqn:H1; cbn [bind];
    [|discriminate].
  destruct (coeffRef_set out1 (base + 1) 0 _) as [out2|] eqn:H2;
    cbn [bind]; [|discriminate].
  destruct (coeffRef_set out2 (base + 2) 0 _) as [out3|] eqn:H3;
    cbn [bind]; [|discriminate].
  destruct (coeffRef_set out3 (base + 3) 0 _) as [out4|] eqn:H4;
    cbn [bind]; [|discriminate].
  intros H5. unroll_contract.
  rewrite N.add_0_r, !u32_small by lia.
  destruct (coeffRef (m_moMatrix set) base indexMO) as [m0|]; cbn [bind];
    [|reflexivity].
  read_back. cbn [bind].
  destruct (coeffRef (m_moMatrix set) (base + 1) indexMO) as [m1|];
    cbn [bind]; [|reflexivity].
  read_back. cbn [bind].
  destruct (coeffRef (m_moMatrix set) (base + 2) indexMO) as [m2|];
    cbn [bind]; [|reflexivity].
  read_back. cbn [bind].
  destruct (coeffRef (m_moMatrix set) (base + 3) indexMO) as [m3|];
    cbn [bind]; [|reflexivity].
  read_back. cbn [bind].
  destruct (coeffRef (m_moMatrix set) (base + 4) indexMO) as [m4|];
    cbn [bind]; [|reflexivity].
  read_back. cbn [bind]. f_equal. ring.
Qed.

(** X14: the two modes of the kernels agree.  Whenever the value-mode
    kernel of a shell has stored the shell's basis values in the column
    [out'], the contribution the MO-mode kernel computes for the same shell
    and point is these values weighted by the shell's rows of the MO column:
    [sum_k C[base + k, indexMO] * out'[base + k]] over the 1, 3, 6 or 5
    functions of an S, P, D or D5 shell (for S, the kernel without the
    small-coefficient shortcut). *)
Theorem kernels_contract_the_basis_values
    (set : GaussianSet) (moIndex : N) (delta : Vector3d) (dr2 : R)
    (indexMO base : N) (out out' : MatrixXd) :
  vget (m_moIndices set) moIndex = Some base ->
  (moIndex + 1 < 4294967296)%N -> (base + 5 < 4294967296)%N ->
  (pointS_values set dr2 moIndex out = Some out' ->
   pointS_noShortcut set moIndex dr2 indexMO
   = contract (m_moMatrix set) out' base 1 indexMO) /\
  (pointP_values set delta dr2 moIndex out = Some out' ->
   pointP set moIndex delta dr2 indexMO
   = contract (m_moMatrix set) out' base 3 indexMO) /\
  (pointD_values set delta dr2 moIndex out = Some out' ->
   pointD set moIndex delta dr2 indexMO
   = contract (m_moMatrix set) out' base 6 indexMO) /\
  (pointD5_values set delta dr2 moIndex out = Some out' ->
   pointD5 set moIndex delta dr2 indexMO
   = contract (m_moMatrix set) out' base 5 indexMO).
Proof.
  intros Hbase Hidx Hrows. split; [|split; [|split]].
  - now apply pointS_contracts.
  - now apply pointP_contracts.
  - now apply pointD_contracts.
  - now apply pointD5_contracts.
Qed.

Lemma kernels_contract_the_basis_values_witness :
  exists out',
    pointP_values pNormalized (mkVector3d 1 0 0) 1 0 (newColumn 3) = Some out' /\
    pointP pNormalized 0 (mkVector3d 1 0 0) 1 0
    = contract (m_moMatrix pNormalized) out' 0 3 0.
Proof.
  destruct (pointP_values pNormalized (mkVector3d 1 0 0) 1 0 (newColumn 3))
    as [out'|] eqn:Hvalues.
  - exists out'. split; [reflexivity|].
    destruct (kernels_contract_the_basis_values
                pNormalized 0 (mkVector3d 1 0 0) 1 0 0 (newColumn 3) out')
      as (_ & HP & _).
    + vm_compute. reflexivity.
    + vm_compute. reflexivity.
    + vm_compute. reflexivity.
    + apply HP. exact Hvalues.
  - vm_compute in Hvalues. discriminate.
Defined.

(** ** The loader *)

Lemma startsWithCI_app (s p q : string) :
  startsWithCI s (p ++ q) = true -> startsWithCI s p = true.
Proof.
  revert s. induction p as [|a p IH]; intros s; [reflexivity|].
  destruct s as [|b s]; cbn [startsWithCI append]; [discriminate|].
  intros H. apply andb_true_iff in H as [Hab Hrest].
  now rewrite Hab, (IH s Hrest).
Qed.

(** A string that contains a needle contains every prefix of the needle. *)
Lemma containsCI_app (s p q : string) :
  containsCI s (p ++ q) = true -> containsCI s p = true.
Proof.
  induction s as [|c s IH]; simpl; intros H.
  - rewrite orb_false_r in H |- *. now apply (startsWithCI_app _ p q).
  - apply orb_true_iff in H as [H|H].
    + now rewrite (startsWithCI_app _ p q H).
    + rewrite (IH H). apply orb_true_r.
Qed.

Lemma firstMatch_loads (parentPath : string) (names : list string) :
  firstMatch parentPath names <> EmptyString ->
  (exists name, In name names /\
     firstMatch parentPath names = (parentPath ++ "/" ++ name)%string) /\
  exists f, formatOf (completeSuffix (firstMatch parentPath names)) = Some f.
Proof.
  induction names as [|name rest IH]; cbn [firstMatch]; intros Hne;
    [congruence|].
  destruct (formatOf (completeSuffix (parentPath ++ "/" ++ name)))
    as [f|] eqn:Hf.
  - split; [exists name; split; [now left | reflexivity]
           | exists f; exact Hf].
  - destruct (IH Hne) as [[n [Hin Hn]] Hload].
    split; [exists n; split; [now right | exact Hn] | exact Hload].
Qed.

(** X15: the file [MatchBasisSet] returns, when it returns one, is the
    given file or one of the directory entries, under the path of the given
    file, and [LoadBasisSet] does not return null for it. *)
Theorem matched_files_are_loaded (entries : list string) (filename : string) :
  MatchBasisSet entries filename <> EmptyString ->
  (exists name, In name (fileName filename :: entries) /\
     MatchBasisSet entries filename
     = (path filename ++ "/" ++ name)%string) /\
  exists b, LoadBasisSet (MatchBasisSet entries filename) = Some b.
Proof.
  unfold MatchBasisSet. destruct (String.eqb filename ""); [congruence|].
  intros Hne. destruct (firstMatch_loads _ _ Hne) as [Hname [f Hf]].
  split; [exact Hname|]. unfold LoadBasisSet. rewrite Hf.
  destruct f; eauto.
Qed.

Lemma matched_files_are_loaded_witness :
  MatchBasisSet ["benzene.log"; "benzene.FChk"]%string "run/benzene.xyz"
  = "run/benzene.FChk"%string /\
  exists b, LoadBasisSet "run/benzene.FChk" = Some b.
Proof.
  split; [reflexivity|].
  destruct (matched_files_are_loaded
              ["benzene.log"; "benzene.FChk"]%string "run/benzene.xyz")
    as [_ Hload].
  - vm_compute. discriminate.
  - exact Hload.
Defined.

(** X16: what decides [LoadBasisSet] is whether the complete suffix of the
    file name contains, in any case, one of six strings: it returns null
    exactly when the suffix contains none of fch, fck, gukout, aux, mold and
    molf (the tests for fchk and molden never decide), and a Slater basis
    exactly when it contains aux and none of fch, fck and gukout. *)
Theorem LoadBasisSet_by_suffix (filename : string) :
  let has := fun needle => containsCI (completeSuffix filename) needle in
  (LoadBasisSet filename = None <->
   has "fch"%string = false /\ has "fck"%string = false /\
   has "gukout"%string = false /\ has "aux"%string = false /\
   has "mold"%string = false /\ has "molf"%string = false) /\
  (LoadBasisSet filename = Some (LoadedSlater Aux) <->
   has "fch"%string = false /\ has "fck"%string = false /\
   has "gukout"%string = false /\ has "aux"%string = true).
Proof.
  cbv zeta. unfold LoadBasisSet, formatOf.
  set (suffix := completeSuffix filename).
  pose proof (containsCI_app suffix "fch" "k") as Hfchk.
  pose proof (containsCI_app suffix "mold" "en") as Hmolden.
  change ("fch" ++ "k")%string with "fchk"%string in Hfchk.
  change ("mold" ++ "en")%string with "molden"%string in Hmolden.
  destruct (containsCI suffix "fchk") eqn:E1;
    destruct (containsCI suffix "fch") eqn:E2;
    try (specialize (Hfchk eq_refl); discriminate);
    destruct (containsCI suffix "fck") eqn:E3;
    destruct (containsCI suffix "gukout") eqn:E4;
    destruct (containsCI suffix "aux") eqn:E5;
    destruct (containsCI suffix "molden") eqn:E6;
    destruct (containsCI suffix "mold") eqn:E7;
    try (specialize (Hmolden eq_refl); discriminate);
    destruct (containsCI suffix "molf") eqn:E8; simpl;
    (split;
     (split;
      [ intros H; try discriminate H; repeat split; reflexivity
      | intros H; try reflexivity; exfalso;
        repeat match goal with
               | H : _ /\ _ |- _ => destruct H
               end; congruence ])).
Qed.


Lemma hasSlash_app (p q : string) :
  hasSlash (p ++ q) = (hasSlash p || hasSlash q)%bool.
Proof.
  induction p as [|c p IH]; [reflexivity|].
  cbn [append hasSlash]. rewrite IH. apply orb_assoc.
Qed.

Lemma fileName_no_slash (s : string) : hasSlash (fileName s) = false.
Proof.
  induction s as [|c s IH]; [reflexivity|]. cbn [fileName].
  destruct (hasSlash s) eqn:Hs; [exact IH|].
  destruct (Ascii.eqb c "/") eqn:Hc; [exact Hs|].
  cbn [hasSlash]. now rewrite Hc, Hs.
Qed.

Lemma fileName_under_path (p name : string) :
  hasSlash name = false -> fileName (p ++ "/" ++ name) = name.
Proof.
  intros Hname. induction p as [|c p IH].
  - cbn [append fileName]. now rewrite Hname.
  - cbn [append fileName]. rewrite hasSlash_app.
    cbn [append hasSlash]. cbn [Ascii.eqb Bool.eqb].
    rewrite orb_true_r. exact IH.
Qed.

(** X17: a file that [LoadBasisSet] accepts is matched to itself: whatever
    the directory holds, [MatchBasisSet] returns the given file's own name
    under its path. *)
Theorem own_file_is_matched_first (entries : list string) (filename : string) :
  filename <> EmptyString ->
  LoadBasisSet filename <> None ->
  MatchBasisSet entries filename
  = (path filename ++ "/" ++ fileName filename)%string.
Proof.
  intros Hne Hload. unfold MatchBasisSet.
  apply String.eqb_neq in Hne. rewrite Hne. cbn [firstMatch].
  unfold completeSuffix at 1.
  rewrite (fileName_under_path _ _ (fileName_no_slash filename)).
  fold (completeSuffix filename).
  unfold LoadBasisSet in Hload.
  destruct (formatOf (completeSuffix filename)); [reflexivity|].
  now contradiction Hload.
Qed.

Lemma own_file_is_matched_first_witness :
  MatchBasisSet ["water.fchk"; "water.aux"]%string "/data/water.aux"
  = "/data/water.aux"%string.
Proof.
  apply (own_file_is_matched_first
           ["water.fchk"; "water.aux"]%string "/data/water.aux").
  - discriminate.
  - vm_compute. discriminate.
Defined.

End OpenQube.
